(** * Password generation and generated-password history

    A shallow embedding of [src/services/passwordGeneration.service.ts]:
    the static [generatePassword] method together with the history cache
    ([getHistory], [addHistory], [clear], [encryptHistory],
    [decryptHistory], [matchesPrevious]), and the options cache
    ([getOptions], [saveOptions]), which shares nothing with the history
    but the storage service and has a state record of its own.

    JavaScript objects and arrays live in explicit stores indexed by
    references, so that aliasing and in-place mutation are visible.  The
    collaborators whose code is not part of the service (the secure random
    number source, the engine's [Array.prototype.sort], the crypto and
    storage services, the wall clock) are interfaces. *)

From Stdlib Require Import ZArith Ascii String List Permutation Lia.
From stdpp Require Import gmap strings list fin_maps.

Local Open Scope Z_scope.

(** * JavaScript values used by the options object *)

(** A numeric property read yields a number or [undefined]; arithmetic on
    [undefined] yields [NaN].  Both are represented by [None]: every
    comparison with them is [false] and every sum with them is [NaN]. *)
Module Js.

Definition num := option Z.

(** Truthiness of a boolean property ([undefined] is falsy). *)
Definition truthy (b : option bool) : bool := default false b.

(** [a < b] *)
Definition lt (a b : num) : bool :=
  match a, b with
  | Some x, Some y => x <? y
  | _, _ => false
  end.

(** [a + b] *)
Definition add (a b : num) : num :=
  match a, b with
  | Some x, Some y => Some (x + y)
  | _, _ => None
  end.

(** [!a] for a numeric property: [0], [NaN] and [undefined] are falsy. *)
Definition falsy (a : num) : bool :=
  match a with
  | Some 0 => true
  | Some _ => false
  | None => true
  end.

(** Number of iterations of [for (let i = 0; i < n; i++)]. *)
Definition iterations (n : num) : nat :=
  match n with
  | Some z => Z.to_nat z
  | None => 0%nat
  end.

(** [s.charAt(i)]: the one-character string at index [i], or the empty
    string when [i] is out of range. *)
Definition charAt (s : string) (i : Z) : string :=
  if i <? 0 then ""
  else match String.get (Z.to_nat i) s with
       | Some c => String c ""
       | None => ""
       end.

(** [s.length] *)
Definition strlen (s : string) : Z := Z.of_nat (String.length s).

End Js.

(** * The options object *)

(** An options object: each of the ten properties may be absent.  Numeric
    properties hold integers, toggles hold booleans. *)
Record Obj := mkObj {
  olength : option Z;
  ambiguous : option bool;
  number : option bool;
  minNumber : option Z;
  uppercase : option bool;
  minUppercase : option Z;
  lowercase : option bool;
  minLowercase : option Z;
  special : option bool;
  minSpecial : option Z;
}.

(** The object literal [{}]. *)
Definition emptyObj : Obj :=
  mkObj None None None None None None None None None None.

(** The module-level constant [DefaultOptions]. *)
Definition DefaultOptions : Obj := {|
  olength := Some 14;
  ambiguous := Some false;
  number := Some true;
  minNumber := Some 1;
  uppercase := Some true;
  minUppercase := Some 1;
  lowercase := Some true;
  minLowercase := Some 1;
  special := Some false;
  minSpecial := Some 1;
|}.

(** Property assignments [o.p = v]. *)
Definition set_olength (v : option Z) (o : Obj) : Obj :=
  mkObj v (ambiguous o) (number o) (minNumber o) (uppercase o)
        (minUppercase o) (lowercase o) (minLowercase o) (special o)
        (minSpecial o).
Definition set_minNumber (v : option Z) (o : Obj) : Obj :=
  mkObj (olength o) (ambiguous o) (number o) v (uppercase o)
        (minUppercase o) (lowercase o) (minLowercase o) (special o)
        (minSpecial o).
Definition set_minUppercase (v : option Z) (o : Obj) : Obj :=
  mkObj (olength o) (ambiguous o) (number o) (minNumber o) (uppercase o)
        v (lowercase o) (minLowercase o) (special o) (minSpecial o).
Definition set_minLowercase (v : option Z) (o : Obj) : Obj :=
  mkObj (olength o) (ambiguous o) (number o) (minNumber o) (uppercase o)
        (minUppercase o) (lowercase o) v (special o) (minSpecial o).
Definition set_minSpecial (v : option Z) (o : Obj) : Obj :=
  mkObj (olength o) (ambiguous o) (number o) (minNumber o) (uppercase o)
        (minUppercase o) (lowercase o) (minLowercase o) (special o) v.

(** Copying the own properties of [source] onto [target]: a property
    present in [source] overwrites, an absent one leaves [target]'s. *)
Definition over {A} (s t : option A) : option A :=
  match s with
  | Some _ => s
  | None => t
  end.

Definition copy_props (target source : Obj) : Obj := {|
  olength := over (olength source) (olength target);
  ambiguous := over (ambiguous source) (ambiguous target);
  number := over (number source) (number target);
  minNumber := over (minNumber source) (minNumber target);
  uppercase := over (uppercase source) (uppercase target);
  minUppercase := over (minUppercase source) (minUppercase target);
  lowercase := over (lowercase source) (lowercase target);
  minLowercase := over (minLowercase source) (minLowercase target);
  special := over (special source) (special target);
  minSpecial := over (minSpecial source) (minSpecial target);
|}.

(** * The object store *)

Definition ref := nat.
Abbreviation store := (gmap nat Obj).

(** The reference held by the module-level binding [const DefaultOptions]. *)
Definition DefaultOptions_ref : ref := 0%nat.

(** [Object.assign(target, ...sources)]: mutates the object at [target]
    in place, source by source, left to right; a source that is not an
    object ([null], [undefined]) is skipped. *)
Definition Object_assign (target : ref) (sources : list ref) (σ : store)
  : store :=
  foldl (fun σ src =>
           match σ !! src with
           | Some s => alter (fun t => copy_props t s) target σ
           | None => σ
           end) σ sources.

(** * generatePassword, lines 37-58: sanitize *)

(** Lines 38-49: a negative minimum of an enabled class becomes 1. *)
Definition sanitize_minimums (o : Obj) : Obj :=
  let o := if Js.truthy (uppercase o) && Js.lt (minUppercase o) (Some 0)
           then set_minUppercase (Some 1) o else o in
  let o := if Js.truthy (lowercase o) && Js.lt (minLowercase o) (Some 0)
           then set_minLowercase (Some 1) o else o in
  let o := if Js.truthy (number o) && Js.lt (minNumber o) (Some 0)
           then set_minNumber (Some 1) o else o in
  if Js.truthy (special o) && Js.lt (minSpecial o) (Some 0)
  then set_minSpecial (Some 1) o else o.

(** Lines 51-53: a missing or non-positive [length] becomes 10. *)
Definition sanitize_length (o : Obj) : Obj :=
  if Js.falsy (olength o) || Js.lt (olength o) (Some 1)
  then set_olength (Some 10) o else o.

(** Lines 55-58: [length] is raised to [minLength]. *)
Definition raise_length (o : Obj) : Obj :=
  let minLength :=
    Js.add (Js.add (Js.add (minUppercase o) (minLowercase o)) (minNumber o))
           (minSpecial o) in
  if Js.lt (olength o) minLength then set_olength minLength o else o.

Definition sanitize (o : Obj) : Obj :=
  raise_length (sanitize_length (sanitize_minimums o)).

(** * generatePassword, lines 60-83: the position plan *)

(** The five tags pushed onto [positions]: ['l'], ['u'], ['n'], ['s'],
    ['a']. *)
Inductive position := PosL | PosU | PosN | PosS | PosA.

Global Instance position_eq_dec : EqDecision position.
Proof. solve_decision. Defined.

(** [for (let i = 0; i < n; i++) { positions.push(tag); }] *)
Fixpoint push_times (n : nat) (tag : position) (positions : list position)
  : list position :=
  match n with
  | O => positions
  | S n' => push_times n' tag (positions ++ [tag])
  end.

(** [while (positions.length < length) { positions.push('a'); }], unrolled
    at most [fuel] times. *)
Fixpoint pad_any (fuel : nat) (length : Js.num) (positions : list position)
  : list position :=
  match fuel with
  | O => positions
  | S fuel' =>
      if Js.lt (Some (Z.of_nat (List.length positions))) length
      then pad_any fuel' length (positions ++ [PosA])
      else positions
  end.

Definition plan (o : Obj) : list position :=
  let positions := [] in
  let positions :=
    if Js.truthy (lowercase o) && Js.lt (Some 0) (minLowercase o)
    then push_times (Js.iterations (minLowercase o)) PosL positions
    else positions in
  let positions :=
    if Js.truthy (uppercase o) && Js.lt (Some 0) (minUppercase o)
    then push_times (Js.iterations (minUppercase o)) PosU positions
    else positions in
  let positions :=
    if Js.truthy (number o) && Js.lt (Some 0) (minNumber o)
    then push_times (Js.iterations (minNumber o)) PosN positions
    else positions in
  let positions :=
    if Js.truthy (special o) && Js.lt (Some 0) (minSpecial o)
    then push_times (Js.iterations (minSpecial o)) PosS positions
    else positions in
  pad_any (Js.iterations (olength o)) (olength o) positions.

(** * generatePassword, lines 90-120: the character sets *)

Definition lowercaseCharSet (o : Obj) : string :=
  let s := "abcdefghijkmnopqrstuvwxyz" in
  if Js.truthy (ambiguous o) then s +:+ "l" else s.

Definition uppercaseCharSet (o : Obj) : string :=
  let s := "ABCDEFGHIJKLMNPQRSTUVWXYZ" in
  if Js.truthy (ambiguous o) then s +:+ "O" else s.

Definition numberCharSet (o : Obj) : string :=
  let s := "23456789" in
  if Js.truthy (ambiguous o) then s +:+ "01" else s.

Definition specialCharSet : string := "!@#$%^&*".

Definition allCharSet (o : Obj) : string :=
  let all := "" in
  let all := if Js.truthy (lowercase o)
             then all +:+ lowercaseCharSet o else all in
  let all := if Js.truthy (uppercase o)
             then all +:+ uppercaseCharSet o else all in
  let all := if Js.truthy (number o)
             then all +:+ numberCharSet o else all in
  if Js.truthy (special o) then all +:+ specialCharSet else all.

(** The [switch (positions[i])] of lines 125-141. *)
Definition positionChars (o : Obj) (p : position) : string :=
  match p with
  | PosL => lowercaseCharSet o
  | PosU => uppercaseCharSet o
  | PosN => numberCharSet o
  | PosS => specialCharSet
  | PosA => allCharSet o
  end.

(** * Collaborators of the generator *)

(** Modelled from the spec: [UtilsService.secureRandomNumber(min, max)],
    whose class (utils.service) is not among the sources.  It draws from a
    source of randomness (the state [rng]) and returns an integer of the
    range [min..max], both bounds included, whenever that range is not
    empty; nothing is assumed of its answer on an empty range. *)
Class SecureRandom := {
  rng : Type;
  secureRandomNumber : Z → Z → rng → Z * rng;
  secureRandomNumber_range lo hi r :
    lo ≤ hi → lo ≤ (secureRandomNumber lo hi r).1 ≤ hi;
}.

(** [Array.prototype.sort(compareFn)] of the engine, with a comparator that
    may consume randomness.  Whatever the comparator answers, the array
    keeps its elements: the result is a permutation of the input. *)
Class ArraySort `{SecureRandom} := {
  array_sort {A} : (A → A → rng → Z * rng) → list A → rng → list A * rng;
  array_sort_perm {A} cmp (l : list A) r : (array_sort cmp l r).1 ≡ₚ l;
}.

Section Generator.
Context `{ArraySort}.

(** * generatePassword, lines 85-88: the shuffle *)

(** The comparator [() => secureRandomNumber(0, 1) * 2 - 1]. *)
Definition shuffle_cmp (_ _ : position) (r : rng) : Z * rng :=
  let (b, r) := secureRandomNumber 0 1 r in (b * 2 - 1, r).

Definition shuffle (positions : list position) (r : rng)
  : list position * rng :=
  array_sort shuffle_cmp positions r.

(** * generatePassword, lines 122-147: drawing the characters *)

(** The loop [for (let i = i0; i < length; i++)], with [n] iterations left.
    [positions[i]] out of range reads [undefined]; no [case] matches, so
    [positionChars] stays [undefined] and [positionChars.length] throws a
    [TypeError], rendered as [None]. *)
Fixpoint draw_chars (o : Obj) (positions : list position) (n : nat)
  (i : nat) (password : string) (r : rng) : option (string * rng) :=
  match n with
  | O => Some (password, r)
  | S n' =>
      match positions !! i with
      | None => None
      | Some p =>
          let chars := positionChars o p in
          let (randomCharIndex, r) :=
            secureRandomNumber 0 (Js.strlen chars - 1) r in
          draw_chars o positions n' (S i)
                     (password +:+ Js.charAt chars randomCharIndex) r
      end
  end.

(** Lines 60-147, on the sanitized object [o]. *)
Definition build_password (o : Obj) (r : rng) : option (string * rng) :=
  let (positions, r) := shuffle (plan o) r in
  draw_chars o positions (Js.iterations (olength o)) 0 "" r.

(** * static generatePassword(options) *)

(** The call allocates the object literal [{}] at a fresh reference [o],
    fills it with [Object.assign], then reads and writes only [o].  The
    result is the store after the call and the returned string (with the
    remaining randomness), or [None] for a thrown [TypeError]. *)
Definition generatePassword (options : ref) (σ : store) (r : rng)
  : store * option (string * rng) :=
  let o := fresh (dom σ) in
  let σ := <[o := emptyObj]> σ in
  let σ := Object_assign o [DefaultOptions_ref; options] σ in
  let σ := alter sanitize o σ in
  (σ, σ !! o ≫= fun ob => build_password ob r).

End Generator.

(** * A concrete random source and a concrete engine sort *)

(** Randomness read from a tape of naturals: each draw consumes one cell
    and reduces it into the requested range (an exhausted tape, or an empty
    range, answers [min]). *)
Definition tape_draw (lo hi : Z) (t : list nat) : Z * list nat :=
  match t with
  | [] => (lo, [])
  | x :: t' =>
      (if lo <=? hi then lo + Z.of_nat x mod (hi - lo + 1) else lo, t')
  end.

(** Insertion sort driven by a state-passing comparator: [x] is placed
    before the first [y] for which the comparator answers a negative
    number. *)
Fixpoint insert_by {A S} (cmp : A → A → S → Z * S) (x : A) (l : list A)
  (s : S) : list A * S :=
  match l with
  | [] => ([x], s)
  | y :: l' =>
      let (c, s) := cmp x y s in
      if c <? 0 then (x :: y :: l', s)
      else let (l'', s) := insert_by cmp x l' s in (y :: l'', s)
  end.

Fixpoint insertion_sort {A S} (cmp : A → A → S → Z * S) (l : list A)
  (s : S) : list A * S :=
  match l with
  | [] => ([], s)
  | x :: l' =>
      let (sorted, s) := insertion_sort cmp l' s in
      insert_by cmp x sorted s
  end.

(** * The history store *)

(** Modelled from the spec: the class of models/domain/passwordHistory,
    built by [new PasswordHistory(password, date)]: a password (clear or
    encrypted) and the time it was generated. *)
Record PasswordHistory := mkPasswordHistory {
  password : string;
  date : Z;
}.

(** Modelled from the spec: the class of models/domain/cipherString,
    built from, and carrying, the encrypted string. *)
Record CipherString := mkCipherString {
  encryptedString : string;
}.

Global Instance PasswordHistory_eq_dec : EqDecision PasswordHistory.
Proof. solve_decision. Defined.

(** Modelled from the spec: the [encrypt] and [decrypt] of
    abstractions/crypto.service.  No law relates them here; a property
    that needs one assumes it. *)
Class CryptoService := {
  encrypt : string → CipherString;
  decrypt : CipherString → string;
}.

Module Keys.
Definition options : string := "passwordGenerationOptions".
Definition history : string := "generatedPasswordHistory".
End Keys.

Definition MaxPasswordsInHistory : Z := 100.

(** Calls made on the collaborators, most recent first. *)
Inductive call :=
  | GetKey
  | StorageGet (k : string)
  | StorageSave (k : string) (v : list PasswordHistory)
  | StorageRemove (k : string)
  | Encrypt (plain : string)
  | Decrypt (c : CipherString).

(** The service instance and its surroundings:
    - [key]: what [cryptoService.getKey()] resolves to ([None] is [null]);
    - [storage]: the key-value store, holding serialized history lists;
    - [arrays]: the JavaScript arrays, by reference;
    - [clock], [ticks]: [Date.now()] answers [clock ticks] and ticks on;
    - [calls]: the log of collaborator calls;
    - [history]: the field [this.history], an array reference or [null]. *)
Record World := mkWorld {
  key : option string;
  storage : gmap string (list PasswordHistory);
  arrays : gmap nat (list PasswordHistory);
  clock : nat → Z;
  ticks : nat;
  calls : list call;
  history : option ref;
}.

(** State-passing computations over [World]. *)
Definition M (A : Type) : Type := World → A * World.

Global Instance M_ret : MRet M := fun A a w => (a, w).
Global Instance M_bind : MBind M :=
  fun A B f m w => let (a, w) := m w in f a w.

Definition log (c : call) (w : World) : World :=
  mkWorld (key w) (storage w) (arrays w) (clock w) (ticks w)
          (c :: calls w) (history w).
Definition with_storage (s : gmap string (list PasswordHistory))
  (w : World) : World :=
  mkWorld (key w) s (arrays w) (clock w) (ticks w) (calls w) (history w).
Definition with_arrays (h : gmap nat (list PasswordHistory))
  (w : World) : World :=
  mkWorld (key w) (storage w) h (clock w) (ticks w) (calls w) (history w).
Definition with_history (f : option ref) (w : World) : World :=
  mkWorld (key w) (storage w) (arrays w) (clock w) (ticks w) (calls w) f.
Definition with_key (k : option string) (w : World) : World :=
  mkWorld k (storage w) (arrays w) (clock w) (ticks w) (calls w) (history w).

(** ** Arrays *)

(** [new Array()], an array literal, or any freshly built array. *)
Definition new_array (items : list PasswordHistory) : M ref :=
  fun w =>
    let a := fresh (dom (arrays w)) in
    (a, with_arrays (<[a := items]> (arrays w)) w).

(** The elements of the array at [a]. *)
Definition array_items (a : ref) : M (list PasswordHistory) :=
  fun w => (default [] (arrays w !! a), w).

(** [a.push(x)] *)
Definition array_push (a : ref) (x : PasswordHistory) : M () :=
  fun w => (tt, with_arrays (alter (fun l => l ++ [x]) a (arrays w)) w).

(** [a.shift()] *)
Definition array_shift (a : ref) : M () :=
  fun w => (tt, with_arrays (alter (drop 1) a (arrays w)) w).

(** ** Collaborator calls *)

(** [this.cryptoService.getKey()] *)
Definition getKey : M (option string) :=
  fun w => (key w, log GetKey w).

(** Modelled from the spec: [this.storageService.get(k)] of
    abstractions/storage.service answers the value saved last under [k],
    deserialized into a new array, or [null]. *)
Definition storage_get (k : string) : M (option ref) :=
  fun w =>
    let w := log (StorageGet k) w in
    match storage w !! k with
    | None => (None, w)
    | Some v => let (a, w) := new_array v w in (Some a, w)
    end.

(** Modelled from the spec: [this.storageService.save(k, a)] replaces
    what is stored under [k] by the serialized elements of [a]. *)
Definition storage_save (k : string) (a : ref) : M () :=
  fun w =>
    let v := default [] (arrays w !! a) in
    (tt, with_storage (<[k := v]> (storage w)) (log (StorageSave k v) w)).

(** Modelled from the spec: [this.storageService.remove(k)]. *)
Definition storage_remove (k : string) : M () :=
  fun w => (tt, with_storage (delete k (storage w)) (log (StorageRemove k) w)).

(** [Date.now()] *)
Definition Date_now : M Z :=
  fun w =>
    (clock w (ticks w),
     mkWorld (key w) (storage w) (arrays w) (clock w) (S (ticks w))
             (calls w) (history w)).

(** [this.history] and [this.history = v]. *)
Definition this_history : M (option ref) := fun w => (history w, w).
Definition set_this_history (v : option ref) : M () :=
  fun w => (tt, with_history v w).

(** A bare [return;], or a branch that does nothing. *)
Definition nothing : M () := mret tt.

(** [items.map(async (item) => f(item))] followed by [Promise.all]: the
    callbacks start in index order and the results keep that order. *)
Fixpoint map_all {A B} (f : A → M B) (items : list A) : M (list B) :=
  match items with
  | [] => mret []
  | item :: rest =>
      b ← f item;
      bs ← map_all f rest;
      mret (b :: bs)
  end.

Section HistoryStore.
Context `{CryptoService}.

Definition crypto_encrypt (plain : string) : M CipherString :=
  fun w => (encrypt plain, log (Encrypt plain) w).

Definition crypto_decrypt (c : CipherString) : M string :=
  fun w => (decrypt c, log (Decrypt c) w).

(** ** private encryptHistory(history) *)
Definition encryptHistory (history : option ref) : M ref :=
  match history with
  | None => new_array []
  | Some a =>
      items ← array_items a;
      if (Z.of_nat (List.length items) =? 0) then new_array []
      else
        encrypted ← map_all (fun item =>
            encrypted ← crypto_encrypt (password item);
            mret (mkPasswordHistory (encryptedString encrypted) (date item)))
          items;
        new_array encrypted
  end.

(** ** private decryptHistory(history) *)
Definition decryptHistory (history : option ref) : M ref :=
  match history with
  | None => new_array []
  | Some a =>
      items ← array_items a;
      if (Z.of_nat (List.length items) =? 0) then new_array []
      else
        decrypted ← map_all (fun item =>
            decrypted ← crypto_decrypt (mkCipherString (password item));
            mret (mkPasswordHistory decrypted (date item)))
          items;
        new_array decrypted
  end.

(** ** private matchesPrevious(password, history) *)
Definition matchesPrevious (pw : string) (history : option ref) : M bool :=
  match history with
  | None => mret false
  | Some a =>
      items ← array_items a;
      if (Z.of_nat (List.length items) =? 0) then mret false
      else
        mret (match items !! (List.length items - 1)%nat with
              | Some item => bool_decide (password item = pw)
              | None => false
              end)
  end.

(** ** The constructor: the field initializer [history = []] *)
Definition new_service (k : option string)
  (s : gmap string (list PasswordHistory)) (c : nat → Z) : World :=
  snd ((a ← new_array []; set_this_history (Some a))
         (mkWorld k s ∅ c 0 [] None)).

(** ** getHistory() *)
Definition getHistory : M ref :=
  k ← getKey;
  let hasKey := bool_decide (k ≠ None) in
  if negb hasKey then new_array []
  else
    h ← this_history;
    _ ← (if bool_decide (h = None)
         then
           encrypted ← storage_get Keys.history;
           decrypted ← decryptHistory encrypted;
           set_this_history (Some decrypted)
         else nothing);
    h ← this_history;
    match h with
    | Some a => mret a
    | None => new_array []
    end.

(** ** addHistory(password) *)
Definition addHistory (pw : string) : M () :=
  k ← getKey;
  let hasKey := bool_decide (k ≠ None) in
  if negb hasKey then nothing
  else
    currentHistory ← getHistory;
    dup ← matchesPrevious pw (Some currentHistory);
    if (dup : bool) then nothing
    else
      now ← Date_now;
      _ ← array_push currentHistory (mkPasswordHistory pw now);
      items ← array_items currentHistory;
      _ ← (if MaxPasswordsInHistory <? Z.of_nat (List.length items)
           then array_shift currentHistory
           else nothing);
      newHistory ← encryptHistory (Some currentHistory);
      storage_save Keys.history newHistory.

(** ** clear() *)
Definition clear : M () :=
  a ← new_array [];
  _ ← set_this_history (Some a);
  storage_remove Keys.history.

(** The decrypted list cached by the instance. *)
Definition cached (w : World) : option (list PasswordHistory) :=
  history w ≫= fun a => arrays w !! a.

(** ** Use of an instance over time *)

(** What can happen to an instance: its three history methods are called,
    the vault is locked or unlocked, and the persisted list is replaced
    behind the instance's back. *)
Inductive event :=
  | CallGetHistory
  | CallAddHistory (pw : string)
  | CallClear
  | SetKey (k : option string)
  | SetStored (v : option (list PasswordHistory)).

Definition step (e : event) (w : World) : World :=
  match e with
  | CallGetHistory => (getHistory w).2
  | CallAddHistory pw => (addHistory pw w).2
  | CallClear => (clear w).2
  | SetKey k => with_key k w
  | SetStored None => with_storage (delete Keys.history (storage w)) w
  | SetStored (Some v) => with_storage (<[Keys.history := v]> (storage w)) w
  end.

Definition run (es : list event) (w : World) : World :=
  foldl (fun w e => step e w) w es.

End HistoryStore.

(** A working encryption stub: the ciphertext is the plaintext behind a
    two-character type tag. *)
Definition stub_encrypt (plain : string) : CipherString :=
  mkCipherString ("2." +:+ plain).
Definition stub_decrypt (c : CipherString) : string :=
  String.substring 2 (String.length (encryptedString c) - 2)
                   (encryptedString c).

(** * Notions used to state the properties *)

(** ** Of the generator *)

(** The object [o] right after [Object.assign({}, DefaultOptions, options)],
    for an [options] argument holding [opts]. *)
Definition merged (opts : Obj) : Obj :=
  copy_props (copy_props emptyObj DefaultOptions) opts.

(** The object [o] after lines 35-58. *)
Definition normalized (opts : Obj) : Obj := sanitize (merged opts).

(** Some character class is enabled. *)
Definition any_enabled (o : Obj) : bool :=
  Js.truthy (lowercase o) || Js.truthy (uppercase o)
  || Js.truthy (number o) || Js.truthy (special o).

(** The four character classes, with their toggle, minimum and set. *)
Inductive class := Lowercase | Uppercase | Number | Special.

Definition class_enabled (C : class) (o : Obj) : bool :=
  Js.truthy match C with
            | Lowercase => lowercase o
            | Uppercase => uppercase o
            | Number => number o
            | Special => special o
            end.

Definition class_minimum (C : class) (o : Obj) : Js.num :=
  match C with
  | Lowercase => minLowercase o
  | Uppercase => minUppercase o
  | Number => minNumber o
  | Special => minSpecial o
  end.

Definition class_set (C : class) (o : Obj) : string :=
  match C with
  | Lowercase => lowercaseCharSet o
  | Uppercase => uppercaseCharSet o
  | Number => numberCharSet o
  | Special => specialCharSet
  end.

Definition class_position (C : class) : position :=
  match C with
  | Lowercase => PosL
  | Uppercase => PosU
  | Number => PosN
  | Special => PosS
  end.

(** The sum [minLength] of line 55. *)
Definition all_minimums (o : Obj) : Js.num :=
  Js.add (Js.add (Js.add (minUppercase o) (minLowercase o)) (minNumber o))
         (minSpecial o).

(** [length] after lines 51-53, from the merged value. *)
Definition defaulted_length (o : Obj) : Z :=
  match olength o with
  | Some z => if (z =? 0) || (z <? 1) then 10 else z
  | None => 10
  end.

(** All ten properties of the object are present. *)
Definition total (o : Obj) : Prop :=
  is_Some (olength o) ∧ is_Some (ambiguous o) ∧ is_Some (number o) ∧
  is_Some (minNumber o) ∧ is_Some (uppercase o) ∧ is_Some (minUppercase o) ∧
  is_Some (lowercase o) ∧ is_Some (minLowercase o) ∧ is_Some (special o) ∧
  is_Some (minSpecial o).

(** The normalization as the specification words it: only the minimums of
    the enabled classes are summed, and [length] is raised to that sum
    exactly when the sum exceeds it. *)
Definition spec_active_minimums (o : Obj) : Z :=
  (if Js.truthy (uppercase o) then default 0 (minUppercase o) else 0)
  + (if Js.truthy (lowercase o) then default 0 (minLowercase o) else 0)
  + (if Js.truthy (number o) then default 0 (minNumber o) else 0)
  + (if Js.truthy (special o) then default 0 (minSpecial o) else 0).

Definition spec_raised_length (length : Z) (o : Obj) : Z :=
  if length <? spec_active_minimums o then spec_active_minimums o else length.

Definition spec_normalized_length (opts : Obj) : Z :=
  let o := sanitize_length (sanitize_minimums (merged opts)) in
  spec_raised_length (default 0 (olength o)) o.

(** The minimums of the disabled classes make no difference to the length
    of [opts]: raising [length] to the sum [minLength] of all four minimums,
    as lines 55-58 do, gives what raising it to the sum of the minimums of
    the enabled classes gives. *)
Definition disabled_minimums_inert (opts : Obj) : bool :=
  let o := sanitize_length (sanitize_minimums (merged opts)) in
  match olength o, all_minimums o with
  | Some length, Some minLength =>
      Z.max length minLength =? spec_raised_length length o
  | _, _ => false
  end.

(** The tagged slots pushed by lines 61-80, before the ['a'] fill. *)
Definition fixed_positions (o : Obj) : list position :=
  (if Js.truthy (lowercase o) && Js.lt (Some 0) (minLowercase o)
   then replicate (Js.iterations (minLowercase o)) PosL else [])
  ++ (if Js.truthy (uppercase o) && Js.lt (Some 0) (minUppercase o)
      then replicate (Js.iterations (minUppercase o)) PosU else [])
  ++ (if Js.truthy (number o) && Js.lt (Some 0) (minNumber o)
      then replicate (Js.iterations (minNumber o)) PosN else [])
  ++ (if Js.truthy (special o) && Js.lt (Some 0) (minSpecial o)
      then replicate (Js.iterations (minSpecial o)) PosS else []).

(** Number of slots of a plan carrying [tag]. *)
Definition tagged (tag : position) (positions : list position) : nat :=
  List.length (filter (fun p => p = tag) positions).

(** The characters of a string, and how many characters of [s] belong to
    the set [chars]. *)
Definition chars_of (s : string) : list ascii := String.list_ascii_of_string s.

Definition in_set (chars : string) (c : ascii) : bool :=
  bool_decide (c ∈ chars_of chars).

Fixpoint count_in (chars : string) (s : string) : nat :=
  match s with
  | EmptyString => 0%nat
  | String c s' => ((if in_set chars c then 1 else 0) + count_in chars s')%nat
  end.

(** Concatenation of the strings appended one by one to [password]. *)
Definition flatten (pieces : list string) : string :=
  foldr String.append "" pieces.

(** [piece] is what one iteration of the drawing loop appends for a slot
    tagged [p]: [charAt] of that slot's set at the index drawn, the index
    being within the set whenever the set is not empty. *)
Definition drawn (o : Obj) (p : position) (piece : string) : Prop :=
  ∃ idx,
    piece = Js.charAt (positionChars o p) idx ∧
    (positionChars o p ≠ "" → 0 ≤ idx ≤ Js.strlen (positionChars o p) - 1).

(** One iteration appended exactly one character of its slot's set. *)
Definition one_char (o : Obj) (p : position) (piece : string) : Prop :=
  ∃ c, piece = String c "" ∧ c ∈ chars_of (positionChars o p).

(** The visually ambiguous characters. *)
Definition ambiguousChars : string := "0O1l".

(** A store holding the defaults and one options object, at reference 1. *)
Definition store_with (opts : Obj) : store :=
  <[1%nat := opts]> {[ DefaultOptions_ref := DefaultOptions ]}.

(** ** Of the history store *)

(** The list after [push] of [x] and the [shift] taken when the list has
    grown beyond [MaxPasswordsInHistory]. *)
Definition push_capped (l : list PasswordHistory) (x : PasswordHistory)
  : list PasswordHistory :=
  if MaxPasswordsInHistory <? Z.of_nat (List.length (l ++ [x]))
  then drop 1 (l ++ [x]) else l ++ [x].

(** [pw] is the password of the last entry of [l]. *)
Definition last_password_is (pw : string) (l : list PasswordHistory) : bool :=
  match last l with
  | Some item => bool_decide (password item = pw)
  | None => false
  end.

(** What [encryptHistory] and [decryptHistory] make of one entry. *)
Definition encrypt_item `{CryptoService} (item : PasswordHistory)
  : PasswordHistory :=
  mkPasswordHistory (encryptedString (encrypt (password item))) (date item).

Definition decrypt_item `{CryptoService} (item : PasswordHistory)
  : PasswordHistory :=
  mkPasswordHistory (decrypt (mkCipherString (password item))) (date item).

(** The world after the calls [cs] (most recent first) were logged. *)
Definition log_many (cs : list call) (w : World) : World :=
  mkWorld (key w) (storage w) (arrays w) (clock w) (ticks w)
          (cs ++ calls w) (history w).

(** A call that reads the persisted history or decrypts. *)
Definition is_load (c : call) : bool :=
  match c with
  | StorageGet _ | Decrypt _ => true
  | _ => false
  end.

(** The instance holds a cache of at most [MaxPasswordsInHistory] entries,
    and no call so far has read the persisted history or decrypted. *)
Definition cache_ok (w : World) : Prop :=
  ∃ a l,
    history w = Some a ∧ arrays w !! a = Some l ∧
    (List.length l ≤ 100)%nat ∧
    Forall (fun c => is_load c = false) (calls w).

(** A fresh instance with a key, an empty storage and a clock that counts
    the calls of [Date.now()]. *)
Definition fresh_instance : World :=
  new_service (Some "k") ∅ (fun n => Z.of_nat n).

(** One hundred calls of [addHistory], alternating two passwords. *)
Definition hundred_adds : list event :=
  mjoin (replicate 50 [CallAddHistory "a"; CallAddHistory "b"]).

(** * The options cache *)

(** Calls made on the storage service for the options, most recent first;
    a saved [null] is [None]. *)
Inductive options_call :=
  | OptionsGet (k : string)
  | OptionsSave (k : string) (v : option Obj).

(** The part of the instance and its surroundings that [getOptions] and
    [saveOptions] touch:
    - [objects]: the JavaScript objects, by reference, the module-level
      [DefaultOptions] among them;
    - [saved]: the key-value store, holding serialized options objects;
    - [options_calls]: the log of storage calls;
    - [optionsCache]: the field [this.optionsCache], an object reference
      or [undefined]. *)
Record OptionsWorld := mkOptionsWorld {
  objects : store;
  saved : gmap string Obj;
  options_calls : list options_call;
  optionsCache : option ref;
}.

(** The field [optionsCache] has no initializer. *)
Definition new_options_service (σ : store) (s : gmap string Obj)
  : OptionsWorld :=
  mkOptionsWorld σ s [] None.

(** Modelled from the spec: [this.storageService.get(k)] answers the
    object saved last under [k], deserialized into a new object, or
    [null]. *)
Definition options_storage_get (k : string) (w : OptionsWorld)
  : option ref * OptionsWorld :=
  let calls := OptionsGet k :: options_calls w in
  match saved w !! k with
  | None =>
      (None, mkOptionsWorld (objects w) (saved w) calls (optionsCache w))
  | Some v =>
      let o := fresh (dom (objects w)) in
      (Some o,
       mkOptionsWorld (<[o := v]> (objects w)) (saved w) calls
                      (optionsCache w))
  end.

(** Modelled from the spec: [this.storageService.save(k, options)]
    replaces what is stored under [k] by the serialized object; a saved
    [null] leaves nothing to read back. *)
Definition options_storage_save (k : string) (options : option ref)
  (w : OptionsWorld) : OptionsWorld :=
  let v := options ≫= fun r => objects w !! r in
  mkOptionsWorld (objects w)
                 (match v with
                  | Some v => <[k := v]> (saved w)
                  | None => delete k (saved w)
                  end)
                 (OptionsSave k v :: options_calls w)
                 (optionsCache w).

(** [this.optionsCache = v] *)
Definition set_optionsCache (v : option ref) (w : OptionsWorld)
  : OptionsWorld :=
  mkOptionsWorld (objects w) (saved w) (options_calls w) v.

(** ** getOptions() *)
Definition getOptions (w : OptionsWorld) : option ref * OptionsWorld :=
  let w :=
    match optionsCache w with
    | None =>
        let (options, w) := options_storage_get Keys.options w in
        match options with
        | None => set_optionsCache (Some DefaultOptions_ref) w
        | Some _ => set_optionsCache options w
        end
    | Some _ => w
    end in
  (optionsCache w, w).

(** ** saveOptions(options) *)
Definition saveOptions (options : option ref) (w : OptionsWorld)
  : OptionsWorld :=
  set_optionsCache options (options_storage_save Keys.options options w).

(** The object [o] after [Object.assign({}, DefaultOptions, options)] when
    the object bound to [DefaultOptions] holds [dflt]. *)
Definition merged_with (dflt opts : Obj) : Obj :=
  copy_props (copy_props emptyObj dflt) opts.

(** ** Further notions on the history *)

(** No two neighbouring entries carry the same password. *)
Definition no_adjacent_duplicate (l : list PasswordHistory) : Prop :=
  ∀ i x y, l !! i = Some x → l !! S i = Some y → password x ≠ password y.

(** The dates never decrease along the list. *)
Definition chronological (l : list PasswordHistory) : Prop :=
  ∀ i j x y, (i ≤ j)%nat → l !! i = Some x → l !! j = Some y →
             date x ≤ date y.

(** An event that replaces the persisted list behind the instance. *)
Definition stores_externally (e : event) : bool :=
  match e with
  | SetStored _ => true
  | _ => false
  end.

(** ** Collaborator calls that reject *)

(** The calls on the storage and on the crypto service are awaited and can
    reject; the methods catch nothing, so a rejection leaves the method at
    the awaited call. The definitions above are the methods with every
    awaited call fulfilled; these are [addHistory] and [clear] left at a
    rejected call. *)

(** The awaited call of lines 213-214 that rejects. *)
Inductive rejection := EncryptRejects | SaveRejects.

(** Modelled from the spec: a [this.storageService.save(k, a)] that
    rejects has been called and has stored nothing. *)
Definition storage_save_rejected (k : string) (a : ref) : M () :=
  fun w => (tt, log (StorageSave k (default [] (arrays w !! a))) w).

(** Modelled from the spec: a [this.storageService.remove(k)] that rejects
    has been called and has removed nothing. *)
Definition storage_remove_rejected (k : string) : M () :=
  fun w => (tt, log (StorageRemove k) w).

Section Rejections.
Context `{CryptoService}.

(** Lines 192-211 of [addHistory], up to the eviction: answers the array
    that lines 213-214 go on to persist, or [None] after a [return;]. *)
Definition addHistory_insert (pw : string) : M (option ref) :=
  k ← getKey;
  let hasKey := bool_decide (k ≠ None) in
  if negb hasKey then mret None
  else
    currentHistory ← getHistory;
    dup ← matchesPrevious pw (Some currentHistory);
    if (dup : bool) then mret None
    else
      now ← Date_now;
      _ ← array_push currentHistory (mkPasswordHistory pw now);
      items ← array_items currentHistory;
      _ ← (if MaxPasswordsInHistory <? Z.of_nat (List.length items)
           then array_shift currentHistory
           else nothing);
      mret (Some currentHistory).

(** Lines 213-214 with both awaited calls fulfilled. *)
Definition addHistory_persist (currentHistory : ref) : M () :=
  newHistory ← encryptHistory (Some currentHistory);
  storage_save Keys.history newHistory.

(** Lines 213-214 left at the call [how]. Every callback of [history.map]
    has called [encrypt] (line 228 runs up to its [await] when the callback
    is called); when one of these calls rejects, [Promise.all] rejects and
    [save] is not called. When [save] rejects, the encrypted array was
    built and the call was made. *)
Definition addHistory_persist_rejected (how : rejection)
  (currentHistory : ref) : M () :=
  match how with
  | EncryptRejects =>
      items ← array_items currentHistory;
      _ ← map_all (fun item => crypto_encrypt (password item)) items;
      nothing
  | SaveRejects =>
      newHistory ← encryptHistory (Some currentHistory);
      storage_save_rejected Keys.history newHistory
  end.

(** [addHistory(password)] whose awaited call [how] rejects: the rejection
    leaves the method there, and nothing undoes lines 206-211. *)
Definition addHistory_rejected (how : rejection) (pw : string) : M () :=
  currentHistory ← addHistory_insert pw;
  match currentHistory with
  | Some a => addHistory_persist_rejected how a
  | None => nothing
  end.

(** [clear()] whose [remove] rejects: line 218 has run. *)
Definition clear_rejected : M () :=
  a ← new_array [];
  _ ← set_this_history (Some a);
  storage_remove_rejected Keys.history.

(** What can happen to an instance whose collaborators may reject: an
    event with every awaited call fulfilled, or a call of [addHistory] or
    [clear] left at a rejected call. *)
Inductive attempt :=
  | Fulfilled (e : event)
  | AddHistoryRejected (how : rejection) (pw : string)
  | ClearRejected.

Definition attempt_step (t : attempt) (w : World) : World :=
  match t with
  | Fulfilled e => step e w
  | AddHistoryRejected how pw => (addHistory_rejected how pw w).2
  | ClearRejected => (clear_rejected w).2
  end.

Definition attempts (ts : list attempt) (w : World) : World :=
  foldl (fun w t => attempt_step t w) w ts.

End Rejections.

(** An attempt in which every collaborator call is fulfilled and nobody
    else writes the persisted list. *)
Definition undisturbed (t : attempt) : bool :=
  match t with
  | Fulfilled e => negb (stores_externally e)
  | _ => false
  end.

(** * The concrete collaborators are collaborators *)

Lemma tape_draw_range lo hi (t : list nat) :
  lo ≤ hi → lo ≤ (tape_draw lo hi t).1 ≤ hi.
Proof.
  intros Hle. destruct t as [|x t]; simpl; [lia|].
  destruct (Z.leb_spec lo hi); [|lia].
  pose proof (Z.mod_pos_bound (Z.of_nat x) (hi - lo + 1)). lia.
Qed.

#[export] Instance TapeRandom : SecureRandom := {|
  rng := list nat;
  secureRandomNumber := tape_draw;
  secureRandomNumber_range := tape_draw_range;
|}.

Lemma insert_by_perm {A S} (cmp : A → A → S → Z * S) x l s :
  (insert_by cmp x l s).1 ≡ₚ x :: l.
Proof.
  revert s. induction l as [|y l IH]; intros s; simpl; [done|].
  destruct (cmp x y s) as [c s1]. destruct (c <? 0); [done|].
  specialize (IH s1). destruct (insert_by cmp x l s1) as [l2 s2]. simpl in *.
  rewrite IH. apply Permutation_swap.
Qed.

Lemma insertion_sort_perm {A S} (cmp : A → A → S → Z * S) l s :
  (insertion_sort cmp l s).1 ≡ₚ l.
Proof.
  revert s. induction l as [|x l IH]; intros s; simpl; [done|].
  specialize (IH s). destruct (insertion_sort cmp l s) as [l1 s1]. simpl in *.
  rewrite insert_by_perm. by rewrite IH.
Qed.

#[export] Instance TapeSort : @ArraySort TapeRandom := {|
  array_sort A := @insertion_sort A (list nat);
  array_sort_perm A := @insertion_sort_perm A (list nat);
|}.

#[export] Instance StubCrypto : CryptoService := {|
  encrypt := stub_encrypt;
  decrypt := stub_decrypt;
|}.

(** * Strings *)

Lemma app_empty_l (s : string) : "" +:+ s = s.
Proof. reflexivity. Qed.

Lemma app_cons (c : ascii) (s t : string) :
  String c s +:+ t = String c (s +:+ t).
Proof. reflexivity. Qed.

Lemma app_empty_r (s : string) : s +:+ "" = s.
Proof. induction s as [|c s IH]; [done|]. by rewrite app_cons, IH. Qed.

Lemma app_assoc_s (s t u : string) : (s +:+ t) +:+ u = s +:+ (t +:+ u).
Proof.
  induction s as [|c s IH]; [done|]. by rewrite !app_cons, IH.
Qed.

Lemma length_app_s (s t : string) :
  String.length (s +:+ t) = (String.length s + String.length t)%nat.
Proof.
  induction s as [|c s IH]; [done|]. rewrite app_cons. simpl. by rewrite IH.
Qed.

Lemma chars_of_app (s t : string) :
  chars_of (s +:+ t) = chars_of s ++ chars_of t.
Proof.
  induction s as [|c s IH]; [done|].
  rewrite app_cons. unfold chars_of in *. simpl. by rewrite IH.
Qed.

Lemma count_in_app (chars s t : string) :
  count_in chars (s +:+ t) = (count_in chars s + count_in chars t)%nat.
Proof.
  induction s as [|c s IH]; [done|].
  rewrite app_cons. simpl. rewrite IH. lia.
Qed.

Lemma get_Some_elem (s : string) (n : nat) (c : ascii) :
  String.get n s = Some c → c ∈ chars_of s.
Proof.
  revert n. induction s as [|d s IH]; intros n; simpl; [done|].
  unfold chars_of; simpl. destruct n as [|n].
  - intros [= ->]. apply list_elem_of_here.
  - intros Hn. apply list_elem_of_further. by eapply IH.
Qed.

Lemma get_is_Some (s : string) (n : nat) :
  (n < String.length s)%nat → is_Some (String.get n s).
Proof.
  revert n. induction s as [|d s IH]; intros n; simpl; [lia|].
  destruct n as [|n]; [eauto|]. intros Hn. apply IH. lia.
Qed.

(** What [charAt] can return: nothing, or one character of the string. *)
Lemma charAt_cases (s : string) (i : Z) :
  Js.charAt s i = "" ∨ ∃ c, Js.charAt s i = String c "" ∧ c ∈ chars_of s.
Proof.
  unfold Js.charAt. destruct (i <? 0); [by left|].
  destruct (String.get (Z.to_nat i) s) as [c|] eqn:Hget; [|by left].
  right. exists c. split; [done|]. by eapply get_Some_elem.
Qed.

(** Within range, [charAt] returns exactly one character of the string. *)
Lemma charAt_in_range (s : string) (i : Z) :
  0 ≤ i ≤ Js.strlen s - 1 →
  ∃ c, Js.charAt s i = String c "" ∧ c ∈ chars_of s.
Proof.
  intros Hi. unfold Js.charAt, Js.strlen in *.
  destruct (Z.ltb_spec i 0); [lia|].
  destruct (get_is_Some s (Z.to_nat i)) as [c Hc]; [lia|].
  rewrite Hc. exists c. split; [done|]. by eapply get_Some_elem.
Qed.

(** * The position plan *)

Lemma push_times_replicate n tag positions :
  push_times n tag positions = positions ++ replicate n tag.
Proof.
  revert positions. induction n as [|n IH]; intros positions; simpl.
  - by rewrite app_nil_r.
  - rewrite IH, <- app_assoc. done.
Qed.

(** With fuel for every missing slot the [while] loop runs to its end: it
    appends exactly the missing ['a'] slots and its condition is false on
    exit. *)
Lemma pad_any_replicate fuel z positions :
  (Z.to_nat z - List.length positions ≤ fuel)%nat →
  pad_any fuel (Some z) positions
  = positions ++ replicate (Z.to_nat z - List.length positions) PosA.
Proof.
  revert positions. induction fuel as [|fuel IH]; intros positions Hfuel.
  - simpl. replace (Z.to_nat z - List.length positions)%nat with 0%nat by lia.
    by rewrite app_nil_r.
  - simpl. destruct (Z.ltb_spec (Z.of_nat (List.length positions)) z).
    + rewrite IH; rewrite length_app; simpl; [|lia].
      rewrite <- app_assoc. f_equal.
      replace (Z.to_nat z - List.length positions)%nat
        with (S (Z.to_nat z - (List.length positions + 1)))%nat by lia.
      done.
    + replace (Z.to_nat z - List.length positions)%nat with 0%nat by lia.
      by rewrite app_nil_r.
Qed.

Lemma pad_any_exit z positions :
  Js.lt (Some (Z.of_nat (List.length (pad_any (Z.to_nat z) (Some z) positions))))
        (Some z) = false.
Proof.
  rewrite pad_any_replicate by lia. simpl.
  rewrite length_app, length_replicate. apply Z.ltb_ge. lia.
Qed.

Lemma plan_fixed_fill o z :
  olength o = Some z →
  plan o = fixed_positions o
           ++ replicate (Z.to_nat z - List.length (fixed_positions o)) PosA.
Proof.
  intros Hz. unfold plan. rewrite Hz. simpl Js.iterations.
  rewrite pad_any_replicate by lia.
  assert (Hfix :
    (let positions := [] in
     let positions :=
       if Js.truthy (lowercase o) && Js.lt (Some 0) (minLowercase o)
       then push_times (Js.iterations (minLowercase o)) PosL positions
       else positions in
     let positions :=
       if Js.truthy (uppercase o) && Js.lt (Some 0) (minUppercase o)
       then push_times (Js.iterations (minUppercase o)) PosU positions
       else positions in
     let positions :=
       if Js.truthy (number o) && Js.lt (Some 0) (minNumber o)
       then push_times (Js.iterations (minNumber o)) PosN positions
       else positions in
     if Js.truthy (special o) && Js.lt (Some 0) (minSpecial o)
     then push_times (Js.iterations (minSpecial o)) PosS positions
     else positions) = fixed_positions o).
  { unfold fixed_positions. cbv zeta.
    repeat match goal with
           | |- context [if ?b then _ else _] => destruct b
           end;
      rewrite ?push_times_replicate, ?app_nil_r, ?app_nil_l, <- ?app_assoc;
      done. }
  cbv zeta in Hfix. by rewrite Hfix.
Qed.

Lemma plan_length o z :
  olength o = Some z →
  List.length (plan o)
  = Nat.max (Z.to_nat z) (List.length (fixed_positions o)).
Proof.
  intros Hz. rewrite (plan_fixed_fill o z Hz).
  rewrite length_app, length_replicate. lia.
Qed.

Lemma tagged_app tag l k :
  tagged tag (l ++ k) = (tagged tag l + tagged tag k)%nat.
Proof. unfold tagged. by rewrite filter_app, length_app. Qed.

Lemma tagged_replicate tag tag' n :
  tagged tag (replicate n tag') = if decide (tag' = tag) then n else 0%nat.
Proof.
  unfold tagged. induction n as [|n IH]; simpl.
  - by destruct (decide _).
  - rewrite filter_cons. destruct (decide (tag' = tag)); simpl; by rewrite IH.
Qed.

Lemma tagged_perm tag l k : l ≡ₚ k → tagged tag l = tagged tag k.
Proof. intros Hp. unfold tagged. by rewrite Hp. Qed.

Lemma tagged_if tag tag' (b : bool) n :
  tagged tag (if b then replicate n tag' else [])
  = if b then (if decide (tag' = tag) then n else 0%nat) else 0%nat.
Proof. destruct b; [apply tagged_replicate|done]. Qed.

(** Every enabled class with a positive minimum has exactly that many
    slots among the tagged ones. *)
Lemma tagged_fixed C o k :
  class_enabled C o = true → class_minimum C o = Some k → 0 ≤ k →
  tagged (class_position C) (fixed_positions o) = Z.to_nat k.
Proof.
  intros Hen Hk Hpos. unfold fixed_positions.
  rewrite !tagged_app, !tagged_if.
  destruct C; unfold class_enabled, class_minimum, class_position in *;
    rewrite Hen, Hk; simpl;
    repeat match goal with
           | |- context [if ?b then _ else _] => destruct b eqn:?
           end; try lia;
    match goal with
    | Hlt : (0 <? k) = false |- _ => apply Z.ltb_ge in Hlt; lia
    end.
Qed.

(** * Merging and sanitizing *)

Lemma merged_total opts : total (merged opts).
Proof.
  unfold total, merged, copy_props, over; simpl.
  repeat split; repeat case_match; eauto.
Qed.

Ltac break_ifs :=
  repeat match goal with
         | |- context [if ?b then _ else _] => destruct b eqn:?; simpl
         end.

(** Each stage writes only the properties it names. *)
Lemma sanitize_minimums_frame o :
  olength (sanitize_minimums o) = olength o ∧
  lowercase (sanitize_minimums o) = lowercase o ∧
  uppercase (sanitize_minimums o) = uppercase o ∧
  number (sanitize_minimums o) = number o ∧
  special (sanitize_minimums o) = special o ∧
  ambiguous (sanitize_minimums o) = ambiguous o.
Proof. unfold sanitize_minimums. cbv zeta. break_ifs; done. Qed.

Lemma sanitize_minimums_class C o :
  class_minimum C (sanitize_minimums o)
  = if class_enabled C o && Js.lt (class_minimum C o) (Some 0)
    then Some 1 else class_minimum C o.
Proof.
  unfold sanitize_minimums. cbv zeta.
  destruct C; unfold class_minimum, class_enabled;
    destruct (Js.truthy (uppercase o) && Js.lt (minUppercase o) (Some 0)) eqn:?;
    simpl;
    destruct (Js.truthy (lowercase o) && Js.lt (minLowercase o) (Some 0)) eqn:?;
    simpl;
    destruct (Js.truthy (number o) && Js.lt (minNumber o) (Some 0)) eqn:?;
    simpl;
    destruct (Js.truthy (special o) && Js.lt (minSpecial o) (Some 0)) eqn:?;
    simpl; done.
Qed.

Lemma sanitize_length_frame o :
  lowercase (sanitize_length o) = lowercase o ∧
  uppercase (sanitize_length o) = uppercase o ∧
  number (sanitize_length o) = number o ∧
  special (sanitize_length o) = special o ∧
  ambiguous (sanitize_length o) = ambiguous o ∧
  ∀ C, class_minimum C (sanitize_length o) = class_minimum C o.
Proof.
  unfold sanitize_length. break_ifs; repeat split; try done; by intros [].
Qed.

Lemma raise_length_frame o :
  lowercase (raise_length o) = lowercase o ∧
  uppercase (raise_length o) = uppercase o ∧
  number (raise_length o) = number o ∧
  special (raise_length o) = special o ∧
  ambiguous (raise_length o) = ambiguous o ∧
  ∀ C, class_minimum C (raise_length o) = class_minimum C o.
Proof.
  unfold raise_length. cbv zeta. break_ifs; repeat split; try done; by intros [].
Qed.

Lemma sanitize_frame o :
  lowercase (sanitize o) = lowercase o ∧ uppercase (sanitize o) = uppercase o ∧
  number (sanitize o) = number o ∧ special (sanitize o) = special o ∧
  ambiguous (sanitize o) = ambiguous o.
Proof.
  unfold sanitize.
  destruct (raise_length_frame (sanitize_length (sanitize_minimums o)))
    as (-> & -> & -> & -> & -> & _).
  destruct (sanitize_length_frame (sanitize_minimums o))
    as (-> & -> & -> & -> & -> & _).
  destruct (sanitize_minimums_frame o) as (_ & -> & -> & -> & -> & ->).
  done.
Qed.

Lemma sanitize_enabled C o : class_enabled C (sanitize o) = class_enabled C o.
Proof.
  destruct (sanitize_frame o) as (Hl & Hu & Hn & Hs & _).
  destruct C; unfold class_enabled; congruence.
Qed.

(** The minimum of a class after sanitizing. *)
Lemma sanitize_class_minimum C o :
  class_minimum C (sanitize o)
  = if class_enabled C o && Js.lt (class_minimum C o) (Some 0)
    then Some 1 else class_minimum C o.
Proof.
  unfold sanitize.
  destruct (raise_length_frame (sanitize_length (sanitize_minimums o)))
    as (_ & _ & _ & _ & _ & ->).
  destruct (sanitize_length_frame (sanitize_minimums o))
    as (_ & _ & _ & _ & _ & ->).
  apply sanitize_minimums_class.
Qed.

(** [length] after lines 51-53, and after lines 55-58. *)
Lemma sanitize_length_value o :
  ∃ n, olength (sanitize_length o) = Some n ∧ 1 ≤ n ∧
       n = match olength o with
           | Some z => if (z =? 0) || (z <? 1) then 10 else z
           | None => 10
           end.
Proof.
  unfold sanitize_length. destruct (olength o) as [z|] eqn:Hz; simpl.
  - destruct z as [|p|p]; simpl; rewrite ?Hz;
      try (eexists; split; [reflexivity|split; lia]).
    destruct (Z.ltb_spec (Z.pos p) 1); [lia|].
    rewrite Hz. eexists; split; [reflexivity|split; lia].
  - eexists; (split; [reflexivity|]); split; lia.
Qed.

Lemma raise_length_value o n :
  olength o = Some n →
  olength (raise_length o)
  = Some match Js.add (Js.add (Js.add (minUppercase o) (minLowercase o))
                              (minNumber o)) (minSpecial o) with
         | Some m => Z.max n m
         | None => n
         end.
Proof.
  intros Hn. unfold raise_length. cbv zeta. rewrite Hn.
  destruct (Js.add _ _) as [m|]; simpl; [|by rewrite Hn].
  destruct (Z.ltb_spec n m); simpl; rewrite ?Hn; f_equal; lia.
Qed.

(** After sanitizing, [length] is a number and at least 1. *)
Lemma sanitize_length_pos o : ∃ n, olength (sanitize o) = Some n ∧ 1 ≤ n.
Proof.
  unfold sanitize.
  destruct (sanitize_length_value (sanitize_minimums o)) as (n & Hn & Hpos & _).
  rewrite (raise_length_value _ n Hn).
  eexists; split; [reflexivity|]. destruct (Js.add _ _); lia.
Qed.

(** [length] after sanitizing: the defaulted length, raised to the sum of
    all four minimums when that sum is larger. *)
Lemma sanitize_length_eq o :
  olength (sanitize o)
  = Some match all_minimums (sanitize o) with
         | Some m => Z.max (defaulted_length o) m
         | None => defaulted_length o
         end.
Proof.
  assert (Hmins : all_minimums (sanitize o)
                  = all_minimums (sanitize_length (sanitize_minimums o))).
  { unfold sanitize.
    destruct (raise_length_frame (sanitize_length (sanitize_minimums o)))
      as (_ & _ & _ & _ & _ & Hm).
    pose proof (Hm Uppercase) as Hu. pose proof (Hm Lowercase) as Hl.
    pose proof (Hm Number) as Hn. pose proof (Hm Special) as Hs.
    simpl in Hu, Hl, Hn, Hs. unfold all_minimums.
    by rewrite Hu, Hl, Hn, Hs. }
  rewrite Hmins. unfold sanitize.
  destruct (sanitize_length_value (sanitize_minimums o)) as (n & Hn & _ & Hv).
  rewrite (raise_length_value _ n Hn). unfold all_minimums, defaulted_length.
  destruct (sanitize_minimums_frame o) as (Hlen & _). rewrite Hlen in Hv.
  by rewrite Hv.
Qed.


(** They make no difference when every disabled class has a minimum
    of 0. *)
Lemma disabled_minimums_zero_inert opts :
  (∀ C, class_enabled C (merged opts) = false →
        class_minimum C (merged opts) = Some 0) →
  disabled_minimums_inert opts = true.
Proof.
  intros Hz. unfold disabled_minimums_inert. cbv zeta.
  set (o1 := sanitize_minimums (merged opts)).
  destruct (sanitize_length_value o1) as (n & Hn & _ & _). rewrite Hn.
  assert (Hcls : ∀ C, ∃ v,
             class_minimum C (sanitize_length o1) = Some v ∧
             (if class_enabled C (sanitize_length o1) then True else v = 0)).
  { intros C.
    destruct (sanitize_length_frame o1) as (Hl & Hu & Hnu & Hs & _ & ->).
    destruct (sanitize_minimums_frame (merged opts))
      as (_ & Hl1 & Hu1 & Hn1 & Hs1 & _). fold o1 in Hl1, Hu1, Hn1, Hs1.
    assert (class_enabled C (sanitize_length o1)
            = class_enabled C (merged opts)) as ->
      by (destruct C; unfold class_enabled; congruence).
    unfold o1. rewrite sanitize_minimums_class.
    assert (Ht : is_Some (class_minimum C (merged opts))).
    { destruct (merged_total opts) as (_ & _ & _ & ? & _ & ? & _ & ? & _ & ?).
      by destruct C. }
    destruct (class_enabled C (merged opts)) eqn:Hen; simpl.
    - destruct Ht as [m ->]. destruct (Js.lt _ _); eauto.
    - rewrite (Hz C Hen). eauto. }
  destruct (Hcls Uppercase) as (vu & Hu & Hzu).
  destruct (Hcls Lowercase) as (vl & Hl & Hzl).
  destruct (Hcls Number) as (vn & Hnn & Hzn).
  destruct (Hcls Special) as (vs & Hs & Hzs).
  clear Hcls Hz. unfold class_minimum, class_enabled in *.
  unfold all_minimums, spec_raised_length, spec_active_minimums.
  rewrite Hu, Hl, Hnn, Hs. cbv beta iota delta [Js.add from_option id].
  apply Z.eqb_eq.
  destruct (Js.truthy (uppercase _)), (Js.truthy (lowercase _)),
    (Js.truthy (number _)), (Js.truthy (special _)); subst;
    match goal with |- context [if ?a <? ?b then _ else _] =>
      destruct (Z.ltb_spec a b) end; lia.
Qed.

(** * The character sets *)

Lemma positionChars_class C o : positionChars o (class_position C) = class_set C o.
Proof. by destruct C. Qed.

Lemma class_set_nonempty C o : class_set C o ≠ "".
Proof.
  destruct C; unfold class_set, lowercaseCharSet, uppercaseCharSet,
    numberCharSet, specialCharSet; cbv zeta;
    try destruct (Js.truthy (ambiguous o)); vm_compute; discriminate.
Qed.

Lemma allCharSet_nonempty o : any_enabled o = true → allCharSet o ≠ "".
Proof.
  unfold any_enabled, allCharSet, lowercaseCharSet, uppercaseCharSet,
    numberCharSet, specialCharSet. cbv zeta.
  destruct (Js.truthy (lowercase o)), (Js.truthy (uppercase o)),
    (Js.truthy (number o)), (Js.truthy (special o));
    simpl; try discriminate; intros _;
    destruct (Js.truthy (ambiguous o)); vm_compute; discriminate.
Qed.

Lemma positionChars_nonempty o p :
  any_enabled o = true → positionChars o p ≠ "".
Proof.
  intros Hen. destruct p; simpl;
    [apply (class_set_nonempty Lowercase o)
    |apply (class_set_nonempty Uppercase o)
    |apply (class_set_nonempty Number o)
    |apply (class_set_nonempty Special o)
    |by apply allCharSet_nonempty].
Qed.

(** * What the drawing loop appends *)

Lemma drawn_one_char o p piece :
  positionChars o p ≠ "" → drawn o p piece → one_char o p piece.
Proof.
  intros Hne (idx & -> & Hidx). by apply charAt_in_range, Hidx.
Qed.

Lemma pieces_one_char o ps pieces :
  any_enabled o = true →
  Forall2 (drawn o) ps pieces → Forall2 (one_char o) ps pieces.
Proof.
  intros Hen Hall. eapply Forall2_impl; [exact Hall|]. intros p piece.
  apply drawn_one_char. by apply positionChars_nonempty.
Qed.

Lemma flatten_cons piece pieces :
  flatten (piece :: pieces) = piece +:+ flatten pieces.
Proof. reflexivity. Qed.

Lemma flatten_one_char_length o ps pieces :
  Forall2 (one_char o) ps pieces →
  String.length (flatten pieces) = List.length ps.
Proof.
  induction 1 as [|p piece ps pieces (c & -> & _) _ IH]; [done|].
  rewrite flatten_cons, length_app_s. simpl. by rewrite IH.
Qed.

(** Each slot tagged for a class contributes a character of that class. *)
Lemma flatten_one_char_count o tag ps pieces :
  Forall2 (one_char o) ps pieces →
  (tagged tag ps ≤ count_in (positionChars o tag) (flatten pieces))%nat.
Proof.
  induction 1 as [|p piece ps pieces (c & -> & Hc) _ IH]; [done|].
  rewrite flatten_cons, count_in_app. change (p :: ps) with ([p] ++ ps).
  rewrite tagged_app. apply Nat.add_le_mono; [|done].
  unfold tagged. rewrite filter_cons, filter_nil.
  destruct (decide (p = tag)) as [->|]; simpl; [|lia].
  unfold in_set. rewrite bool_decide_eq_true_2 by done. lia.
Qed.

(** Every character appended belongs to the set of some slot. *)
Lemma flatten_drawn_chars o ps pieces c :
  Forall2 (drawn o) ps pieces →
  c ∈ chars_of (flatten pieces) → ∃ p, c ∈ chars_of (positionChars o p).
Proof.
  induction 1 as [|p piece ps pieces (idx & -> & _) _ IH]; [by inversion 1|].
  rewrite flatten_cons, chars_of_app. intros [Hc|Hc]%elem_of_app; [|by apply IH].
  exists p. destruct (charAt_cases (positionChars o p) idx) as [Heq|(d & Heq & Hd)];
    rewrite Heq in Hc.
  - inversion Hc.
  - unfold chars_of in Hc. simpl in Hc. by apply list_elem_of_singleton in Hc as ->.
Qed.

(** Without the ambiguous characters enabled, no set holds one. *)
Lemma positionChars_clean o p :
  Js.truthy (ambiguous o) = false →
  Forall (fun c => c ∉ chars_of ambiguousChars) (chars_of (positionChars o p)).
Proof.
  intros Hamb.
  destruct p; unfold positionChars, allCharSet, lowercaseCharSet,
    uppercaseCharSet, numberCharSet, specialCharSet; cbv zeta;
    rewrite ?Hamb;
    try destruct (Js.truthy (lowercase o));
    try destruct (Js.truthy (uppercase o));
    try destruct (Js.truthy (number o));
    try destruct (Js.truthy (special o));
    match goal with |- ?G => apply (@bool_decide_unpack G _) end;
    vm_compute; exact I.
Qed.

(** [Object.assign] writes to its target only. *)
Lemma Object_assign_other target sources (σ : store) l :
  l ≠ target → Object_assign target sources σ !! l = σ !! l.
Proof.
  intros Hne. unfold Object_assign. revert σ.
  induction sources as [|src sources IH]; intros σ; simpl; [done|].
  rewrite IH. destruct (σ !! src); [|done]. by rewrite lookup_alter_ne.
Qed.

(** A single character belongs to at most one of the three sets of
    letters and digits (ambiguous characters excluded). *)
Lemma one_char_one_class (o : Obj) (c : ascii) :
  Js.truthy (ambiguous o) = false →
  (count_in (lowercaseCharSet o) (String c "")
   + count_in (uppercaseCharSet o) (String c "")
   + count_in (numberCharSet o) (String c "") ≤ 1)%nat.
Proof.
  intros Hamb. unfold lowercaseCharSet, uppercaseCharSet, numberCharSet.
  cbv zeta. rewrite Hamb.
  destruct c as [[] [] [] [] [] [] [] []]; vm_compute; lia.
Qed.

(** * The generator *)

Section GeneratorFacts.
Context `{ArraySort}.

(** The call, for a store holding the defaults and an options object:
    the new object [o] ends up holding the normalized options, and the
    password is built from them. *)
Lemma generatePassword_eq options (σ : store) r opts :
  σ !! DefaultOptions_ref = Some DefaultOptions →
  σ !! options = Some opts →
  generatePassword options σ r
  = (<[fresh (dom σ) := normalized opts]> σ,
     build_password (normalized opts) r).
Proof.
  intros Hdef Hopt. unfold generatePassword.
  set (o := fresh (dom σ)).
  assert (Ho : σ !! o = None) by (apply not_elem_of_dom, is_fresh).
  assert (o ≠ DefaultOptions_ref) by congruence.
  assert (o ≠ options) by congruence.
  unfold Object_assign. simpl.
  rewrite lookup_insert_ne, Hdef by done.
  rewrite alter_insert_eq.
  rewrite lookup_insert_ne, Hopt by done.
  rewrite !alter_insert_eq.
  by rewrite lookup_insert_eq.
Qed.

Lemma shuffle_perm positions r : (shuffle positions r).1 ≡ₚ positions.
Proof. apply array_sort_perm. Qed.

(** The drawing loop, run inside the plan: it never reads past the plan,
    and appends one piece per slot, in slot order. *)
Lemma draw_chars_spec o positions n i pw r :
  (i + n ≤ List.length positions)%nat →
  ∃ pieces r',
    draw_chars o positions n i pw r = Some (pw +:+ flatten pieces, r') ∧
    Forall2 (drawn o) (take n (drop i positions)) pieces.
Proof.
  revert i pw r. induction n as [|n IH]; intros i pw r Hlen.
  - exists [], r. simpl. rewrite app_empty_r. split; [done|].
    rewrite take_0. constructor.
  - simpl.
    destruct (lookup_lt_is_Some_2 positions i) as [p Hp]; [lia|].
    rewrite Hp.
    pose proof (secureRandomNumber_range 0
                  (Js.strlen (positionChars o p) - 1) r) as Hrange.
    destruct (secureRandomNumber 0 (Js.strlen (positionChars o p) - 1) r)
      as [idx r1]. simpl in Hrange.
    destruct (IH (S i) (pw +:+ Js.charAt (positionChars o p) idx) r1)
      as (pieces & r' & Heq & Hall); [lia|].
    exists (Js.charAt (positionChars o p) idx :: pieces), r'.
    split.
    + rewrite Heq. unfold flatten. simpl. by rewrite app_assoc_s.
    + rewrite (drop_S _ _ _ Hp). simpl. constructor; [|done].
      exists idx. split; [done|]. intros Hne. apply Hrange.
      unfold Js.strlen. destruct (positionChars o p); [done|]. simpl. lia.
Qed.

(** Shape of the result of [build_password] for a sanitized object. *)
Lemma build_password_spec o n r :
  olength o = Some n →
  ∃ positions pieces r',
    positions ≡ₚ plan o ∧
    build_password o r = Some (flatten pieces, r') ∧
    Forall2 (drawn o) (take (Z.to_nat n) positions) pieces.
Proof.
  intros Hn. unfold build_password.
  pose proof (shuffle_perm (plan o) r) as Hperm.
  destruct (shuffle (plan o) r) as [positions r1]. simpl in Hperm.
  rewrite Hn. simpl Js.iterations.
  destruct (draw_chars_spec o positions (Z.to_nat n) 0 "" r1)
    as (pieces & r' & Heq & Hall).
  { rewrite (Permutation_length Hperm), (plan_length o n Hn). lia. }
  exists positions, pieces, r'. rewrite app_empty_l in Heq.
  by rewrite drop_0 in Hall.
Qed.

(** For a sanitized object with some class enabled, the string built has
    one character per slot up to [length]. *)
Lemma build_password_length o n r :
  any_enabled o = true → olength o = Some n → 0 ≤ n →
  ∃ pw r',
    build_password o r = Some (pw, r') ∧ Z.of_nat (String.length pw) = n.
Proof.
  intros Hen Hn Hpos.
  destruct (build_password_spec o n r Hn)
    as (positions & pieces & r' & Hperm & Heq & Hall).
  exists (flatten pieces), r'. split; [done|].
  apply pieces_one_char in Hall; [|done].
  rewrite (flatten_one_char_length _ _ _ Hall).
  rewrite length_take, (Permutation_length Hperm), (plan_length _ n Hn). lia.
Qed.

(** The tagged slots never outnumber the sum of the four minimums, when
    none of these is negative. *)
Lemma fixed_positions_length o l u n s :
  minLowercase o = Some l → minUppercase o = Some u →
  minNumber o = Some n → minSpecial o = Some s →
  0 ≤ l → 0 ≤ u → 0 ≤ n → 0 ≤ s →
  Z.of_nat (List.length (fixed_positions o)) ≤ u + l + n + s.
Proof.
  intros Hl Hu Hn Hs ????. unfold fixed_positions.
  rewrite Hl, Hu, Hn, Hs, !length_app. simpl.
  repeat match goal with
         | |- context [if ?b then _ else _] => destruct b
         end; rewrite ?length_replicate; simpl; lia.
Qed.

(** Provided no disabled class carries a negative minimum, an enabled
    class with minimum [k >= 0] gets at least [k] characters of its set. *)
Lemma generatePassword_minimum_met options (σ : store) r opts C k :
  σ !! DefaultOptions_ref = Some DefaultOptions →
  σ !! options = Some opts →
  (∀ D d, class_enabled D (merged opts) = false →
          class_minimum D (merged opts) = Some d → 0 ≤ d) →
  class_enabled C (merged opts) = true →
  class_minimum C (merged opts) = Some k → 0 ≤ k →
  ∃ pw r',
    (generatePassword options σ r).2 = Some (pw, r') ∧
    (Z.to_nat k ≤ count_in (class_set C (normalized opts)) pw)%nat.
Proof.
  intros Hdef Hopt Hdis Hen Hk Hpos.
  rewrite (generatePassword_eq _ _ _ _ Hdef Hopt). simpl.
  set (o := normalized opts).
  assert (Hmin : ∀ D, ∃ d, class_minimum D o = Some d ∧ 0 ≤ d).
  { intros D. unfold o, normalized. rewrite sanitize_class_minimum.
    assert (is_Some (class_minimum D (merged opts))) as [d Hd].
    { destruct (merged_total opts) as (?&?&?&?&?&?&?&?&?&?). by destruct D. }
    rewrite Hd. simpl. destruct (class_enabled D (merged opts)) eqn:HD; simpl.
    - destruct (Z.ltb_spec d 0); eauto with lia.
    - eauto. }
  destruct (Hmin Lowercase) as (l & Hl & ?), (Hmin Uppercase) as (u & Hu & ?),
    (Hmin Number) as (n' & Hn' & ?), (Hmin Special) as (s & Hs & ?).
  simpl in Hl, Hu, Hn', Hs.
  pose proof (sanitize_length_eq (merged opts)) as Hlen. fold (normalized opts) in Hlen.
  fold o in Hlen. unfold all_minimums in Hlen. rewrite Hl, Hu, Hn', Hs in Hlen.
  simpl in Hlen.
  set (n := Z.max (defaulted_length (merged opts)) (u + l + n' + s)) in Hlen.
  pose proof (fixed_positions_length o l u n' s Hl Hu Hn' Hs) as Hfix.
  assert (HkC : class_minimum C o = Some k).
  { unfold o, normalized. rewrite sanitize_class_minimum, Hen, Hk. simpl.
    by destruct (Z.ltb_spec k 0); [lia|]. }
  assert (HenC : class_enabled C o = true).
  { unfold o, normalized. by rewrite sanitize_enabled. }
  destruct (build_password_spec o n r Hlen)
    as (positions & pieces & r' & Hperm & Heq & Hall).
  exists (flatten pieces), r'. split; [done|].
  apply pieces_one_char in Hall.
  2:{ unfold any_enabled. destruct C; unfold class_enabled in HenC;
        rewrite HenC; by rewrite ?orb_true_r. }
  rewrite take_ge in Hall.
  2:{ rewrite (Permutation_length Hperm), (plan_length _ n Hlen). lia. }
  rewrite <- positionChars_class.
  etrans; [|apply (flatten_one_char_count _ _ _ _ Hall)].
  rewrite (tagged_perm _ _ _ Hperm), (plan_fixed_fill _ n Hlen), tagged_app.
  rewrite (tagged_fixed C o k HenC HkC Hpos). lia.
Qed.


(** C5: when [ambiguous] is false after the defaults are merged in, the
    call returns a string, and none of ['0'], ['O'], ['1'], ['l'] occurs in
    it, for every random source and engine sort. *)
Theorem generatePassword_no_ambiguous options (σ : store) r opts :
  σ !! DefaultOptions_ref = Some DefaultOptions →
  σ !! options = Some opts →
  ambiguous (merged opts) = Some false →
  ∃ pw r',
    (generatePassword options σ r).2 = Some (pw, r') ∧
    ∀ c, c ∈ chars_of pw → c ∉ chars_of ambiguousChars.
Proof.
  intros Hdef Hopt Hamb. rewrite (generatePassword_eq _ _ _ _ Hdef Hopt). simpl.
  destruct (sanitize_length_pos (merged opts)) as (n & Hn & Hpos).
  fold (normalized opts) in Hn.
  destruct (build_password_spec (normalized opts) n r Hn)
    as (positions & pieces & r' & Hperm & Heq & Hall).
  exists (flatten pieces), r'. split; [done|]. intros c Hc.
  destruct (flatten_drawn_chars _ _ _ _ Hall Hc) as (p & Hp).
  assert (Hclean : Js.truthy (ambiguous (normalized opts)) = false).
  { unfold normalized. destruct (sanitize_frame (merged opts))
      as (_ & _ & _ & _ & ->). by rewrite Hamb. }
  pose proof (positionChars_clean _ p Hclean) as Hall'.
  rewrite Forall_forall in Hall'. by apply Hall'.
Qed.

(** C10: the call changes no object that existed before it, in particular
    neither the caller's options object nor [DefaultOptions]: every
    property of theirs reads the same afterwards. *)
Theorem generatePassword_frame options (σ : store) r opts dflt :
  σ !! options = Some opts →
  σ !! DefaultOptions_ref = Some dflt →
  let σ' := (generatePassword options σ r).1 in
  σ' !! options = Some opts ∧ σ' !! DefaultOptions_ref = Some dflt ∧
  ∀ l ob, σ !! l = Some ob → σ' !! l = Some ob.
Proof.
  intros Hopt Hdef σ'.
  assert (Hframe : ∀ l ob, σ !! l = Some ob → σ' !! l = Some ob).
  { intros l ob Hl. unfold σ', generatePassword. cbv zeta. cbn [fst].
    assert (Ho : σ !! fresh (dom σ) = None) by (apply not_elem_of_dom, is_fresh).
    assert (l ≠ fresh (dom σ)) by congruence.
    rewrite lookup_alter_ne by done.
    rewrite Object_assign_other by done.
    by rewrite lookup_insert_ne. }
  auto.
Qed.

(** C2, the code at [{length: 3}]: the special class is disabled by
    default, yet its default minimum of 1 is counted in [minLength].  The
    three active minimums sum to 3, which does not exceed the requested
    length, so by the stated rule the length stays 3; the code raises it
    to 4 and returns four characters. *)
Theorem normalized_length_counts_disabled_minimum r :
  let opts := set_olength (Some 3) emptyObj in
  class_enabled Special (normalized opts) = false ∧
  spec_active_minimums (normalized opts) = 3 ∧
  spec_normalized_length opts = 3 ∧
  olength (normalized opts) = Some 4 ∧
  ∃ pw r',
    (generatePassword 1%nat (store_with opts) r).2 = Some (pw, r') ∧
    String.length pw = 4%nat.
Proof.
  intros opts. repeat split; try reflexivity.
  rewrite (generatePassword_eq 1%nat (store_with opts) r opts) by reflexivity.
  destruct (build_password_length (normalized opts) 4 r)
    as (pw & r' & Heq & Hlen); [reflexivity|reflexivity|lia|].
  exists pw, r'. split; [done|]. lia.
Qed.

(** C4, the code at [{length: 1, minSpecial: -3}]: lowercase, uppercase
    and number are enabled with minimum 1 each, the disabled special class
    lowers [minLength] to 0, the length stays 1, and the single character
    returned cannot serve all three classes, whatever the random source
    and the engine sort do. *)
Theorem minimum_missed_by_negative_disabled_minimum r :
  let opts := set_minSpecial (Some (-3)) (set_olength (Some 1) emptyObj) in
  let o := normalized opts in
  (class_enabled Lowercase o = true ∧ class_minimum Lowercase o = Some 1) ∧
  (class_enabled Uppercase o = true ∧ class_minimum Uppercase o = Some 1) ∧
  (class_enabled Number o = true ∧ class_minimum Number o = Some 1) ∧
  ∃ pw r',
    (generatePassword 1%nat (store_with opts) r).2 = Some (pw, r') ∧
    String.length pw = 1%nat ∧
    ¬ (1 ≤ count_in (class_set Lowercase o) pw ∧
       1 ≤ count_in (class_set Uppercase o) pw ∧
       1 ≤ count_in (class_set Number o) pw)%nat.
Proof.
  intros opts o. repeat split; try reflexivity.
  rewrite (generatePassword_eq 1%nat (store_with opts) r opts) by reflexivity.
  destruct (build_password_length (normalized opts) 1 r)
    as (pw & r' & Heq & Hlen); [reflexivity|reflexivity|lia|].
  exists pw, r'. split; [done|].
  assert (Hone : String.length pw = 1%nat) by lia. split; [done|].
  destruct pw as [|c [|d pw]]; simpl in Hone; try lia.
  pose proof (one_char_one_class o c eq_refl) as Hsum.
  unfold class_set. lia.
Qed.

End GeneratorFacts.

(** With all four classes enabled, minimums of 5 each and [length: 10],
    the normalized length is 20. *)
Example normalized_length_20 :
  olength (normalized (mkObj (Some 10) None (Some true) (Some 5) (Some true)
                             (Some 5) (Some true) (Some 5) (Some true)
                             (Some 5)))
  = Some 20.
Proof. reflexivity. Qed.

(** [{length: 0}] behaves as [length: 10]. *)
Example normalized_length_0 :
  olength (normalized (set_olength (Some 0) emptyObj)) = Some 10.
Proof. reflexivity. Qed.



Lemma generatePassword_no_ambiguous_witness :
  ∃ pw r',
    (@generatePassword TapeRandom TapeSort 1%nat (store_with emptyObj)
       [3; 1; 4; 1; 5; 9; 2; 6]%nat).2 = Some (pw, r') ∧
    ∀ c, c ∈ chars_of pw → c ∉ chars_of ambiguousChars.
Proof.
  apply (@generatePassword_no_ambiguous TapeRandom TapeSort 1%nat (store_with emptyObj)
           [3; 1; 4; 1; 5; 9; 2; 6]%nat emptyObj); reflexivity.
Defined.

Lemma generatePassword_frame_witness :
  let opts := set_minSpecial (Some (-3)) (set_olength (Some 0) emptyObj) in
  let σ' := (@generatePassword TapeRandom TapeSort 1%nat (store_with opts)
               [3; 1; 4]%nat).1 in
  σ' !! 1%nat = Some opts ∧ σ' !! DefaultOptions_ref = Some DefaultOptions ∧
  ∀ l ob, store_with opts !! l = Some ob → σ' !! l = Some ob.
Proof.
  intros opts.
  apply (@generatePassword_frame TapeRandom TapeSort 1%nat (store_with opts) [3; 1; 4]%nat opts
           DefaultOptions); reflexivity.
Defined.

(** * The history store *)

Lemma bind_run {A B} (m : M A) (f : A → M B) w a w' :
  m w = (a, w') → (m ≫= f) w = f a w'.
Proof. intros Hm. unfold mbind, M_bind. by rewrite Hm. Qed.

Lemma log_many_nil w : log_many [] w = w.
Proof. by destruct w. Qed.

(** [map] then [Promise.all] over callbacks that make one logged call per
    item: the results come in index order, the calls are logged in index
    order, nothing else changes. *)
Lemma map_all_logged {A B} (g : A → B) (c : A → call) (items : list A) w :
  map_all (fun item w => (g item, log (c item) w)) items w
  = (map g items, log_many (rev (map c items)) w).
Proof.
  revert w. induction items as [|item items IH]; intros w; simpl.
  - by rewrite log_many_nil.
  - unfold mbind, M_bind. rewrite IH. unfold mret, M_ret. f_equal.
    unfold log_many, log. simpl. f_equal. by rewrite <- app_assoc.
Qed.

Section HistoryFacts.
Context `{CryptoService}.

Lemma encryptHistory_eq w a l :
  arrays w !! a = Some l → l ≠ [] →
  encryptHistory (Some a) w
  = new_array (map encrypt_item l)
              (log_many (rev (map (fun item => Encrypt (password item)) l)) w).
Proof.
  intros Ha Hne. unfold encryptHistory.
  erewrite bind_run; [|unfold array_items; by rewrite Ha].
  simpl. destruct l as [|item l]; [done|].
  assert ((Z.of_nat (List.length (item :: l)) =? 0) = false) as ->
    by (apply Z.eqb_neq; simpl; lia).
  erewrite bind_run; [done|].
  apply (map_all_logged encrypt_item (fun item => Encrypt (password item))).
Qed.

Lemma decryptHistory_eq w a l :
  arrays w !! a = Some l → l ≠ [] →
  decryptHistory (Some a) w
  = new_array (map decrypt_item l)
      (log_many (rev (map (fun item => Decrypt (mkCipherString (password item)))
                          l)) w).
Proof.
  intros Ha Hne. unfold decryptHistory.
  erewrite bind_run; [|unfold array_items; by rewrite Ha].
  simpl. destruct l as [|item l]; [done|].
  assert ((Z.of_nat (List.length (item :: l)) =? 0) = false) as ->
    by (apply Z.eqb_neq; simpl; lia).
  erewrite bind_run; [done|].
  apply (map_all_logged decrypt_item
           (fun item => Decrypt (mkCipherString (password item)))).
Qed.

Lemma new_array_lookup items w :
  arrays (new_array items w).2 !! (new_array items w).1 = Some items.
Proof. unfold new_array. simpl. by rewrite lookup_insert_eq. Qed.

Lemma new_array_other items w b l :
  arrays w !! b = Some l → arrays (new_array items w).2 !! b = Some l.
Proof.
  intros Hb.
  assert (Hf : arrays w !! fresh (dom (arrays w)) = None)
    by apply not_elem_of_dom, is_fresh.
  assert (fresh (dom (arrays w)) ≠ b) by congruence.
  unfold new_array. cbn [snd arrays with_arrays]. by rewrite lookup_insert_ne.
Qed.

Lemma getHistory_no_key w :
  key w = None → getHistory w = new_array [] (log GetKey w).
Proof.
  intros Hk. unfold getHistory.
  erewrite bind_run; [|reflexivity]. by rewrite Hk.
Qed.

(** With a key and a cache, [getHistory] returns the cached array itself
    and touches neither the storage nor the crypto service. *)
Lemma getHistory_cached w k a :
  key w = Some k → history w = Some a → getHistory w = (a, log GetKey w).
Proof.
  intros Hk Ha. unfold getHistory.
  erewrite bind_run; [|reflexivity]. rewrite Hk. simpl.
  erewrite bind_run; [|reflexivity]. simpl. rewrite Ha. simpl.
  erewrite bind_run; [|reflexivity].
  erewrite bind_run; [|reflexivity]. simpl. by rewrite Ha.
Qed.

Lemma addHistory_no_key pw w :
  key w = None → addHistory pw w = (tt, log GetKey w).
Proof.
  intros Hk. unfold addHistory.
  erewrite bind_run; [|reflexivity]. by rewrite Hk.
Qed.

Lemma matchesPrevious_eq pw w a l :
  arrays w !! a = Some l →
  matchesPrevious pw (Some a) w = (last_password_is pw l, w).
Proof.
  intros Ha. unfold matchesPrevious, last_password_is.
  erewrite bind_run; [|unfold array_items; by rewrite Ha]. simpl.
  destruct l as [|item l]; [done|].
  assert ((Z.of_nat (List.length (item :: l)) =? 0) = false) as ->
    by (apply Z.eqb_neq; simpl; lia).
  rewrite last_lookup.
  replace (List.length (item :: l) - 1)%nat
    with (Init.Nat.pred (List.length (item :: l))) by (simpl; lia).
  done.
Qed.

Lemma addHistory_suppressed pw w k a l :
  key w = Some k → history w = Some a → arrays w !! a = Some l →
  last_password_is pw l = true →
  addHistory pw w = (tt, log GetKey (log GetKey w)).
Proof.
  intros Hk Ha Hl Hlast. unfold addHistory.
  erewrite bind_run; [|reflexivity]. rewrite Hk. simpl.
  erewrite bind_run; [|by eapply getHistory_cached].
  erewrite bind_run; [|by eapply matchesPrevious_eq].
  by rewrite Hlast.
Qed.

Lemma alter_lookup {A} (f : A → A) (m : gmap nat A) a x :
  m !! a = Some x → alter f a m = <[a := f x]> m.
Proof.
  intros Ha. rewrite <- (insert_id m a x Ha) at 1. by rewrite alter_insert_eq.
Qed.

Lemma array_items_eq a w l :
  arrays w !! a = Some l → array_items a w = (l, w).
Proof. intros Ha. unfold array_items. by rewrite Ha. Qed.

Lemma addHistory_inserted_eq pw w k a l :
  key w = Some k → history w = Some a → arrays w !! a = Some l →
  last_password_is pw l = false →
  let x := mkPasswordHistory pw (clock w (ticks w)) in
  let l' := push_capped l x in
  let arr := <[a := l']> (arrays w) in
  addHistory pw w
  = (tt, mkWorld (key w)
                 (<[Keys.history := map encrypt_item l']> (storage w))
                 (<[fresh (dom arr) := map encrypt_item l']> arr)
                 (clock w) (S (ticks w))
                 (StorageSave Keys.history (map encrypt_item l')
                    :: rev (map (fun item => Encrypt (password item)) l')
                    ++ GetKey :: GetKey :: calls w)
                 (history w)).
Proof.
  intros Hk Ha Hl Hlast x l' arr. unfold addHistory.
  erewrite bind_run; [|reflexivity]. rewrite Hk. cbv zeta.
  rewrite bool_decide_eq_true_2 by done. cbn [negb]. cbv iota.
  erewrite bind_run; [|by eapply getHistory_cached].
  erewrite bind_run; [|by eapply matchesPrevious_eq].
  rewrite Hlast. cbv beta iota.
  destruct w as [k0 st arr0 clk tk cs h]. simpl in Hk, Ha, Hl.
  subst k0 h. cbn [clock ticks key storage arrays calls history] in *.
  erewrite bind_run; [|reflexivity].
  erewrite bind_run; [|reflexivity].
  cbn [log with_arrays clock ticks key storage arrays calls history].
  rewrite (alter_lookup _ _ _ _ Hl).
  cbn [with_arrays clock ticks key storage arrays calls history].
  erewrite bind_run; [|apply array_items_eq, lookup_insert_eq].
  fold x.
  assert (Hl' : l' ≠ []).
  { unfold l', push_capped. destruct (_ <? _) eqn:Hcap.
    - apply Z.ltb_lt in Hcap. unfold MaxPasswordsInHistory in Hcap.
      rewrite length_app in Hcap. simpl in Hcap.
      destruct l as [|y l]; simpl in *; [lia|]. by destruct l.
    - by destruct l. }
  set (w1 := mkWorld (Some k) st arr clk (S tk) (GetKey :: GetKey :: cs) (Some a)).
  assert (Hshift :
    (if MaxPasswordsInHistory <? Z.of_nat (List.length (l ++ [x]))
     then array_shift a else nothing)
      (mkWorld (Some k) st (<[a:=l ++ [x]]> arr0) clk (S tk)
               (GetKey :: GetKey :: cs) (Some a))
    = (tt, w1)).
  { unfold w1, arr, l', push_capped. destruct (_ <? _); [|done].
    unfold array_shift. cbn [arrays with_arrays key storage clock ticks calls history].
    by rewrite alter_insert_eq. }
  erewrite bind_run; [|exact Hshift].
  erewrite bind_run.
  2:{ apply encryptHistory_eq with (l := l'); [|done].
      unfold w1, arr. cbn [arrays]. by rewrite lookup_insert_eq. }
  unfold new_array, storage_save, w1, log_many, log, with_storage, with_arrays.
  cbn [arrays key storage clock ticks calls history].
  rewrite lookup_insert_eq. cbn [default]. reflexivity.
Qed.

Lemma push_capped_length l x :
  (List.length l ≤ 100)%nat → (List.length (push_capped l x) ≤ 100)%nat.
Proof.
  intros Hl. unfold push_capped, MaxPasswordsInHistory.
  destruct (Z.ltb_spec 100 (Z.of_nat (List.length (l ++ [x]))));
    rewrite ?length_drop, length_app in *; simpl in *; lia.
Qed.

Lemma push_capped_last l x : last (push_capped l x) = Some x.
Proof.
  unfold push_capped, MaxPasswordsInHistory.
  destruct (Z.ltb_spec 100 (Z.of_nat (List.length (l ++ [x])))) as [Hlt|_].
  - rewrite length_app in Hlt. simpl in Hlt.
    destruct l as [|y l]; simpl in Hlt; [lia|]. simpl. rewrite drop_0.
    apply last_snoc.
  - apply last_snoc.
Qed.

(** At capacity the oldest entry leaves and the new one is last. *)
Lemma push_capped_full l x :
  List.length l = 100%nat → push_capped l x = drop 1 l ++ [x].
Proof.
  intros Hl. unfold push_capped, MaxPasswordsInHistory.
  destruct (Z.ltb_spec 100 (Z.of_nat (List.length (l ++ [x])))) as [_|Hge].
  - destruct l as [|y l]; [done|]. simpl. by rewrite !drop_0.
  - rewrite length_app in Hge. simpl in Hge. lia.
Qed.

Lemma push_capped_changes pw l x :
  last_password_is pw l = false → password x = pw → push_capped l x ≠ l.
Proof.
  intros Hlast Hx Heq. pose proof (push_capped_last l x) as Hl.
  rewrite Heq in Hl. unfold last_password_is in Hlast. rewrite Hl in Hlast.
  by rewrite bool_decide_eq_true_2 in Hlast.
Qed.

(** The state after [addHistory], with a key and a cache: the cached array
    is the same array, holding the old list or the capped extension. *)
Lemma addHistory_post pw w k a l :
  key w = Some k → history w = Some a → arrays w !! a = Some l →
  let x := mkPasswordHistory pw (clock w (ticks w)) in
  let l1 := if last_password_is pw l then l else push_capped l x in
  let w1 := (addHistory pw w).2 in
  key w1 = Some k ∧ history w1 = Some a ∧ arrays w1 !! a = Some l1 ∧
  clock w1 = clock w ∧
  ticks w1 = (if last_password_is pw l then ticks w else S (ticks w)) ∧
  storage w1 = (if last_password_is pw l then storage w
                else <[Keys.history := map encrypt_item l1]> (storage w)) ∧
  last_password_is pw l1 = true ∧
  (Forall (fun c => is_load c = false) (calls w) →
   Forall (fun c => is_load c = false) (calls w1)).
Proof.
  intros Hk Ha Hl x l1 w1. unfold w1, l1.
  destruct (last_password_is pw l) eqn:Hlast.
  - rewrite (addHistory_suppressed pw w k a l Hk Ha Hl Hlast). simpl.
    repeat split; try done. intros Hc. by repeat constructor.
  - rewrite (addHistory_inserted_eq pw w k a l Hk Ha Hl Hlast). simpl.
    fold x. repeat split; try done.
    + rewrite lookup_insert_ne; [by rewrite lookup_insert_eq|].
      intros Heq.
      pose proof (is_fresh (dom (<[a:=push_capped l x]> (arrays w)))) as Hf.
      rewrite Heq in Hf. apply Hf. rewrite dom_insert_L. set_solver.
    + unfold last_password_is. rewrite push_capped_last. simpl.
      by rewrite bool_decide_eq_true_2.
    + intros Hc. constructor; [done|]. apply Forall_app. split.
      * apply Forall_forall. intros c Hin.
        apply list_elem_of_In, in_rev, in_map_iff in Hin as (item & <- & _).
        done.
      * by repeat constructor.
Qed.

Lemma new_service_ok k s c : cache_ok (new_service k s c).
Proof.
  exists 0%nat, []. repeat split; try reflexivity; [simpl; lia|constructor].
Qed.

Lemma step_ok e w : cache_ok w → cache_ok (step e w).
Proof.
  intros (a & l & Ha & Hl & Hlen & Hc).
  destruct e as [|pw| |k'|[v|]]; simpl.
  - destruct (key w) as [k|] eqn:Hk.
    + rewrite (getHistory_cached w k a Hk Ha). simpl.
      exists a, l. repeat split; try done. by constructor.
    + rewrite (getHistory_no_key w Hk).
      exists a, l. split; [done|]. split; [by apply new_array_other|].
      split; [done|]. simpl. by constructor.
  - destruct (key w) as [k|] eqn:Hk.
    + destruct (addHistory_post pw w k a l Hk Ha Hl)
        as (_ & Ha1 & Hl1 & _ & _ & _ & _ & Hc1).
      eexists a, _. split; [done|]. split; [exact Hl1|]. split; [|by apply Hc1].
      destruct (last_password_is pw l); [done|]. by apply push_capped_length.
    + rewrite (addHistory_no_key pw w Hk). simpl.
      exists a, l. repeat split; try done. by constructor.
  - exists (fresh (dom (arrays w))), []. unfold clear. simpl.
    repeat split; try done.
    + by rewrite lookup_insert_eq.
    + lia.
    + by constructor.
  - by exists a, l.
  - by exists a, l.
  - by exists a, l.
Qed.

Lemma run_ok es w : cache_ok w → cache_ok (run es w).
Proof.
  revert w. induction es as [|e es IH]; intros w Hw; simpl; [done|].
  by apply IH, step_ok.
Qed.

Lemma cached_eq w a l :
  history w = Some a → arrays w !! a = Some l → cached w = Some l.
Proof. intros Ha Hl. unfold cached. by rewrite Ha. Qed.

(** The branch of [getHistory] behind [if (!this.history)], taken only
    in a state where the field holds [null]: the persisted list is read,
    decrypted entry by entry and cached. *)
Lemma getHistory_unloaded w k :
  key w = Some k → history w = None →
  let r := getHistory w in
  history r.2 = Some r.1 ∧
  arrays r.2 !! r.1
  = Some (map decrypt_item (default [] (storage w !! Keys.history))).
Proof.
  intros Hk Hh. unfold getHistory.
  erewrite bind_run; [|reflexivity]. rewrite Hk. cbv zeta.
  rewrite bool_decide_eq_true_2 by done. cbn [negb]. cbv iota.
  erewrite bind_run; [|reflexivity]. cbn [history log]. rewrite Hh.
  rewrite bool_decide_eq_true_2 by done. cbv iota.
  set (w0 := log (StorageGet Keys.history) (log GetKey w)).
  assert (Hload : ∃ d w2,
    (encrypted ← storage_get Keys.history;
     decrypted ← decryptHistory encrypted;
     set_this_history (Some decrypted)) (log GetKey w)
    = (tt, with_history (Some d) w2) ∧
    arrays w2 !! d
    = Some (map decrypt_item (default [] (storage w !! Keys.history)))).
  { destruct (storage w !! Keys.history) as [v|] eqn:Hv; cbn [default].
    - set (a1 := (new_array v w0).1). set (w1 := (new_array v w0).2).
      assert (Hget : storage_get Keys.history (log GetKey w) = (Some a1, w1)).
      { unfold storage_get. cbn [storage log]. by rewrite Hv. }
      assert (Ha1 : arrays w1 !! a1 = Some v) by apply new_array_lookup.
      assert (Hdec : ∃ d w2, decryptHistory (Some a1) w1 = (d, w2) ∧
                             arrays w2 !! d = Some (map decrypt_item v)).
      { destruct v as [|item v].
        - unfold decryptHistory. erewrite bind_run; [|by apply array_items_eq].
          simpl. eexists _, _. split; [reflexivity|].
          exact (new_array_lookup [] w1).
        - rewrite (decryptHistory_eq w1 a1 (item :: v) Ha1) by done.
          eexists _, _. split; [reflexivity|]. apply new_array_lookup. }
      destruct Hdec as (d & w2 & Hdec & Hd). exists d, w2. split; [|done].
      erewrite bind_run; [|exact Hget].
      erewrite bind_run; [|exact Hdec]. reflexivity.
    - assert (Hget : storage_get Keys.history (log GetKey w) = (None, w0)).
      { unfold storage_get. cbn [storage log]. by rewrite Hv. }
      eexists _, _. split.
      + erewrite bind_run; [|exact Hget].
        erewrite bind_run; [|reflexivity]. reflexivity.
      + exact (new_array_lookup [] w0). }
  destruct Hload as (d & w2 & Hload & Hd).
  erewrite bind_run; [|exact Hload].
  erewrite bind_run; [|reflexivity]. by cbn.
Qed.

(** C1, the code on a fresh instance: the field initializer leaves
    [this.history] holding an empty array, which is truthy, so the branch
    that reads and decrypts the persisted list is never taken.  With a key
    available and whatever list [s] persisted, the first [getHistory()]
    returns the empty cached array after the single call [getKey]; and
    after any sequence of uses of the instance no call has ever read the
    persisted history or decrypted. *)
Theorem getHistory_never_loads k s c es :
  let w := new_service (Some k) s c in
  let r := getHistory w in
  (arrays r.2 !! r.1 = Some [] ∧ calls r.2 = [GetKey] ∧
   cached r.2 = Some [] ∧ storage r.2 = s) ∧
  Forall (fun call => is_load call = false) (calls (run es w)).
Proof.
  intros w r. split.
  - unfold r. rewrite (getHistory_cached w k 0%nat) by reflexivity.
    by repeat split.
  - by destruct (run_ok es w (new_service_ok _ _ _)) as (_ & _ & _ & _ & _ & ?).
Qed.

(** C6: with a key available, [addHistory(p)] appends an entry exactly
    when [p] is not the password of the last cached entry (or the cache is
    empty), and then persists the encrypted list; a second [addHistory(p)]
    right after changes neither cache nor storage; and after a different
    [q], [p] is appended again. *)
Theorem addHistory_duplicate_suppression w k a l pw :
  key w = Some k → history w = Some a → arrays w !! a = Some l →
  let x := mkPasswordHistory pw (clock w (ticks w)) in
  let w1 := (addHistory pw w).2 in
  (last_password_is pw l = true →
   cached w1 = Some l ∧ storage w1 = storage w) ∧
  (last_password_is pw l = false →
   cached w1 = Some (push_capped l x) ∧ push_capped l x ≠ l ∧
   storage w1 !! Keys.history = Some (map encrypt_item (push_capped l x))) ∧
  (let w2 := (addHistory pw w1).2 in
   cached w2 = cached w1 ∧ storage w2 = storage w1) ∧
  (∀ q l1, q ≠ pw → cached w1 = Some l1 →
     let w2 := (addHistory q w1).2 in
     let w3 := (addHistory pw w2).2 in
     let xq := mkPasswordHistory q (clock w1 (ticks w1)) in
     let xp := mkPasswordHistory pw (clock w2 (ticks w2)) in
     cached w3 = Some (push_capped (push_capped l1 xq) xp) ∧
     push_capped (push_capped l1 xq) xp ≠ push_capped l1 xq).
Proof.
  intros Hk Ha Hl x w1.
  destruct (addHistory_post pw w k a l Hk Ha Hl)
    as (Hk1 & Ha1 & Hl1 & Hclk1 & Htk1 & Hst1 & Hlast1 & _).
  fold x w1 in Hk1, Ha1, Hl1, Hclk1, Htk1, Hst1, Hlast1.
  split; [intros Hlast|split; [intros Hlast|split; [|intros q l1 Hq Hc1]]].
  - rewrite Hlast in Hl1, Hst1. split; [by apply (cached_eq w1 a)|done].
  - rewrite Hlast in Hl1, Hst1. split; [by apply (cached_eq w1 a)|].
    split; [by apply (push_capped_changes pw)|].
    rewrite Hst1. by rewrite lookup_insert_eq.
  - destruct (addHistory_post pw w1 k a _ Hk1 Ha1 Hl1)
      as (_ & Ha2 & Hl2 & _ & _ & Hst2 & _ & _).
    rewrite Hlast1 in Hl2, Hst2. split; [|done].
    by rewrite (cached_eq _ a _ Ha2 Hl2), (cached_eq _ a _ Ha1 Hl1).
  - intros w2 w3 xq xp.
    rewrite (cached_eq _ a _ Ha1 Hl1) in Hc1. injection Hc1 as <-.
    assert (Hlq : last_password_is q
                    (if last_password_is pw l then l else push_capped l x)
                  = false).
    { unfold last_password_is in Hlast1 |- *.
      destruct (last _) as [item|]; [|done].
      apply bool_decide_eq_true in Hlast1. apply bool_decide_eq_false.
      congruence. }
    destruct (addHistory_post q w1 k a _ Hk1 Ha1 Hl1)
      as (Hk2 & Ha2 & Hl2 & _ & _ & _ & _ & _).
    rewrite Hlq in Hl2. fold w2 xq in Hk2, Ha2, Hl2.
    assert (Hlp : last_password_is pw
                    (push_capped
                       (if last_password_is pw l then l else push_capped l x)
                       xq) = false).
    { unfold last_password_is. rewrite push_capped_last. simpl.
      by apply bool_decide_eq_false. }
    destruct (addHistory_post pw w2 k a _ Hk2 Ha2 Hl2)
      as (_ & Ha3 & Hl3 & _ & _ & _ & _ & _).
    rewrite Hlp in Hl3. fold w3 xp in Ha3, Hl3.
    split; [by apply (cached_eq w3 a)|].
    by apply (push_capped_changes pw).
Qed.

(** C7: whatever happened to the instance before, the cached history holds
    at most 100 entries after [addHistory]; and when the call inserts into
    a list of exactly 100 entries, the result is the old list without its
    first entry, followed by the new entry, 100 entries in all. *)
Theorem addHistory_capped k0 s c es pw :
  let w := run es (new_service k0 s c) in
  let w' := (addHistory pw w).2 in
  ∃ l l',
    cached w = Some l ∧ cached w' = Some l' ∧
    (List.length l' ≤ 100)%nat ∧
    (key w ≠ None → List.length l = 100%nat →
     last_password_is pw l = false →
     l' = drop 1 l ++ [mkPasswordHistory pw (clock w (ticks w))] ∧
     List.length l' = 100%nat).
Proof.
  intros w w'.
  pose proof (run_ok es _ (new_service_ok k0 s c)) as Hw. fold w in Hw.
  pose proof (step_ok (CallAddHistory pw) w Hw) as Hw'. simpl in Hw'.
  fold w' in Hw'.
  destruct Hw as (a & l & Ha & Hl & Hlen & _).
  destruct Hw' as (a' & l' & Ha' & Hl' & Hlen' & _).
  exists l, l'. split; [by apply (cached_eq w a)|].
  split; [by apply (cached_eq w' a')|]. split; [done|].
  intros Hkey Hfull Hlast. destruct (key w) as [k|] eqn:Hk; [|done].
  destruct (addHistory_post pw w k a l Hk Ha Hl) as (_ & Ha1 & Hl1 & _).
  fold w' in Ha1, Hl1. rewrite Hlast in Hl1.
  assert (a' = a) as -> by congruence.
  assert (l' = push_capped l (mkPasswordHistory pw (clock w (ticks w)))) as ->
    by congruence.
  rewrite (push_capped_full l _ Hfull). split; [done|].
  rewrite length_app, length_drop. simpl. lia.
Qed.

(** C8: when [decrypt] inverts [encrypt], encrypting a non-empty history
    entry by entry (the date kept as it is, in index order) and decrypting
    the result gives back the history. *)
Theorem history_roundtrip w a L :
  (∀ plain, decrypt (mkCipherString (encryptedString (encrypt plain))) = plain) →
  arrays w !! a = Some L → L ≠ [] →
  let enc := encryptHistory (Some a) w in
  let dec := decryptHistory (Some enc.1) enc.2 in
  arrays enc.2 !! enc.1 = Some (map encrypt_item L) ∧
  map date (map encrypt_item L) = map date L ∧
  arrays dec.2 !! dec.1 = Some L.
Proof.
  intros Hinv Ha Hne enc dec.
  assert (Henc : arrays enc.2 !! enc.1 = Some (map encrypt_item L)).
  { unfold enc. rewrite (encryptHistory_eq w a L Ha Hne).
    apply new_array_lookup. }
  split; [done|]. split.
  - rewrite map_map. by apply map_ext.
  - unfold dec. rewrite (decryptHistory_eq _ _ _ Henc).
    2:{ by destruct L. }
    rewrite new_array_lookup. f_equal. rewrite map_map.
    rewrite <- (map_id L) at 2. apply map_ext. intros [p d].
    unfold decrypt_item, encrypt_item. simpl. by rewrite Hinv.
Qed.

(** C9: without a key, [getHistory()] returns a new empty array and
    [addHistory] returns at once; the only collaborator call either makes
    is [getKey], and storage, [this.history] and every existing array are
    left as they were. *)
Theorem no_key_degrades w pw :
  key w = None →
  let g := getHistory w in
  let ad := addHistory pw w in
  (arrays g.2 !! g.1 = Some [] ∧ calls g.2 = GetKey :: calls w ∧
   storage g.2 = storage w ∧ history g.2 = history w ∧
   ∀ b l, arrays w !! b = Some l → arrays g.2 !! b = Some l) ∧
  (calls ad.2 = GetKey :: calls w ∧ storage ad.2 = storage w ∧
   history ad.2 = history w ∧ arrays ad.2 = arrays w).
Proof.
  intros Hk g ad. unfold g, ad.
  rewrite (getHistory_no_key w Hk), (addHistory_no_key pw w Hk).
  repeat split.
  - apply new_array_lookup.
  - intros b l Hb. by apply new_array_other.
Qed.

End HistoryFacts.

(** * The properties at concrete inputs *)

Lemma substring_all (s : string) : String.substring 0 (String.length s) s = s.
Proof. induction s as [|c s IH]; simpl; [done|]. by rewrite IH. Qed.

Lemma stub_roundtrip plain :
  stub_decrypt (mkCipherString (encryptedString (stub_encrypt plain))) = plain.
Proof.
  unfold stub_decrypt, stub_encrypt. cbn [encryptedString].
  change ("2." +:+ plain) with (String "2" (String "." plain)).
  cbn [String.length String.substring Nat.sub]. rewrite ?Nat.sub_0_r.
  apply substring_all.
Qed.

Lemma addHistory_duplicate_suppression_witness :
  let w := fresh_instance in
  let w1 := (addHistory "p" w).2 in
  (key w = Some "k" ∧ history w = Some 0%nat ∧ arrays w !! 0%nat = Some []) ∧
  cached w1 = Some [mkPasswordHistory "p" 0] ∧
  cached (addHistory "p" w1).2 = cached w1 ∧
  cached (addHistory "p" (addHistory "q" w1).2).2
  = Some [mkPasswordHistory "p" 0; mkPasswordHistory "q" 1;
          mkPasswordHistory "p" 2].
Proof.
  intros w w1.
  destruct (@addHistory_duplicate_suppression StubCrypto w "k" 0%nat [] "p"
              eq_refl eq_refl eq_refl) as (_ & Hins & Htwice & Hpqp).
  split; [repeat split; reflexivity|].
  split; [exact (proj1 (Hins eq_refl))|].
  split; [exact (proj1 Htwice)|].
  refine (proj1 (Hpqp "q" [mkPasswordHistory "p" 0] _ (proj1 (Hins eq_refl)))).
  discriminate.
Defined.

Lemma addHistory_capped_witness :
  let w := run hundred_adds fresh_instance in
  let w' := (addHistory "c" w).2 in
  ∃ l l',
    cached w = Some l ∧ cached w' = Some l' ∧
    key w ≠ None ∧ List.length l = 100%nat ∧
    last_password_is "c" l = false ∧
    l' = drop 1 l ++ [mkPasswordHistory "c" (clock w (ticks w))] ∧
    List.length l' = 100%nat.
Proof.
  intros w w'.
  destruct (@addHistory_capped StubCrypto (Some "k") ∅ (fun n => Z.of_nat n)
              hundred_adds "c") as (l & l' & Hl & Hl' & _ & Hfull).
  fold fresh_instance in Hl, Hl', Hfull. fold w in Hl, Hl', Hfull.
  fold w' in Hl'.
  exists l, l'. split; [exact Hl|]. split; [exact Hl'|].
  assert (Hkey : key w ≠ None) by (vm_compute; discriminate).
  assert (Hlen : List.length l = 100%nat).
  { vm_compute in Hl. injection Hl as <-. reflexivity. }
  assert (Hlast : last_password_is "c" l = false).
  { vm_compute in Hl. injection Hl as <-. reflexivity. }
  split; [exact Hkey|]. split; [exact Hlen|]. split; [exact Hlast|].
  exact (Hfull Hkey Hlen Hlast).
Defined.

Lemma history_roundtrip_witness :
  let L := [mkPasswordHistory "hunter2" 1000; mkPasswordHistory "s3cret" 2000] in
  let w := mkWorld (Some "k") ∅ {[ 0%nat := L ]} (fun n => Z.of_nat n) 0 []
                   (Some 0%nat) in
  let enc := encryptHistory (Some 0%nat) w in
  let dec := decryptHistory (Some enc.1) enc.2 in
  arrays enc.2 !! enc.1 = Some (map encrypt_item L) ∧
  map date (map encrypt_item L) = map date L ∧
  arrays dec.2 !! dec.1 = Some L.
Proof.
  intros L w.
  apply (@history_roundtrip StubCrypto w 0%nat L stub_roundtrip);
    [reflexivity|discriminate].
Defined.

Lemma no_key_degrades_witness :
  let w := with_key None (run hundred_adds fresh_instance) in
  key w = None ∧
  calls (getHistory w).2 = GetKey :: calls w ∧
  calls (addHistory "p" w).2 = GetKey :: calls w ∧
  arrays (addHistory "p" w).2 = arrays w.
Proof.
  intros w.
  destruct (@no_key_degrades StubCrypto w "p" eq_refl)
    as ((_ & Hg & _) & (Ha & _ & _ & Harr)).
  split; [reflexivity|]. split; [exact Hg|]. split; [exact Ha|exact Harr].
Defined.

(** * Further facts on the generator *)

Lemma charAt_empty (i : Z) : Js.charAt "" i = "".
Proof. unfold Js.charAt. destruct (i <? 0); [done|]. by destruct (Z.to_nat i). Qed.

Lemma drawn_length o p piece :
  drawn o p piece → (String.length piece ≤ 1)%nat.
Proof.
  intros (idx & -> & _).
  destruct (charAt_cases (positionChars o p) idx) as [->|(c & -> & _)];
    simpl; lia.
Qed.

Lemma flatten_drawn_length o ps pieces :
  Forall2 (drawn o) ps pieces →
  (String.length (flatten pieces) ≤ List.length ps)%nat.
Proof.
  induction 1 as [|p piece ps pieces Hd _ IH]; [done|].
  rewrite flatten_cons, length_app_s. apply drawn_length in Hd. simpl. lia.
Qed.

(** A character appended by the loop belongs to the set of a slot the
    loop went through. *)
Lemma flatten_drawn_slot o ps pieces c :
  Forall2 (drawn o) ps pieces →
  c ∈ chars_of (flatten pieces) →
  ∃ p, p ∈ ps ∧ c ∈ chars_of (positionChars o p).
Proof.
  induction 1 as [|p piece ps pieces (idx & -> & _) _ IH]; [by inversion 1|].
  rewrite flatten_cons, chars_of_app. intros [Hc|Hc]%elem_of_app.
  - exists p. split; [apply list_elem_of_here|].
    destruct (charAt_cases (positionChars o p) idx) as [Heq|(d & Heq & Hd)];
      rewrite Heq in Hc; [inversion Hc|].
    unfold chars_of in Hc. simpl in Hc.
    by apply list_elem_of_singleton in Hc as ->.
  - destruct (IH Hc) as (q & Hq & Hcq). exists q.
    split; [by apply list_elem_of_further|done].
Qed.

Lemma fixed_positions_enabled o p :
  p ∈ fixed_positions o →
  ∃ C, p = class_position C ∧ class_enabled C o = true.
Proof.
  unfold fixed_positions. rewrite !elem_of_app.
  intros [Hp|[Hp|[Hp|Hp]]];
    match type of Hp with
    | _ ∈ (if ?b then _ else _) => destruct b eqn:Hb; [|by inversion Hp]
    end;
    apply elem_of_replicate in Hp as [-> _];
    apply andb_true_iff in Hb as [Hb _];
    [by exists Lowercase|by exists Uppercase|by exists Number|by exists Special].
Qed.

Lemma plan_position o n p :
  olength o = Some n → p ∈ plan o →
  p = PosA ∨ ∃ C, p = class_position C ∧ class_enabled C o = true.
Proof.
  intros Hn. rewrite (plan_fixed_fill o n Hn), elem_of_app.
  intros [Hp|Hp]; [right; by apply fixed_positions_enabled|].
  left. by apply elem_of_replicate in Hp as [-> _].
Qed.

(** The ["any"] pool holds characters of enabled classes only. *)
Lemma allCharSet_chars o c :
  c ∈ chars_of (allCharSet o) →
  ∃ C, class_enabled C o = true ∧ c ∈ chars_of (class_set C o).
Proof.
  unfold allCharSet. cbv zeta.
  destruct (Js.truthy (lowercase o)) eqn:Hl,
    (Js.truthy (uppercase o)) eqn:Hu,
    (Js.truthy (number o)) eqn:Hn,
    (Js.truthy (special o)) eqn:Hs;
    rewrite ?chars_of_app, ?elem_of_app; intros Hc;
    repeat match goal with
           | H : _ ∨ _ |- _ => destruct H
           | H : _ ∈ chars_of "" |- _ => inversion H
           end;
    first [by exists Lowercase|by exists Uppercase
          |by exists Number|by exists Special].
Qed.

(** The four sets share no character, with or without the ambiguous
    characters. *)
Lemma class_sets_disjoint o C D c :
  C ≠ D → c ∈ chars_of (class_set C o) → c ∉ chars_of (class_set D o).
Proof.
  intros Hne. revert c. apply Forall_forall.
  unfold class_set, lowercaseCharSet, uppercaseCharSet, numberCharSet,
    specialCharSet. cbv zeta.
  destruct (Js.truthy (ambiguous o)), C, D; try done;
    match goal with |- ?G => apply (@bool_decide_unpack G _) end;
    vm_compute; exact I.
Qed.

Lemma sanitize_minimums_id o :
  (∀ C, class_enabled C o && Js.lt (class_minimum C o) (Some 0) = false) →
  sanitize_minimums o = o.
Proof.
  intros Hc. unfold sanitize_minimums.
  pose proof (Hc Uppercase) as Hu. pose proof (Hc Lowercase) as Hl.
  pose proof (Hc Number) as Hn. pose proof (Hc Special) as Hs.
  unfold class_enabled, class_minimum in Hu, Hl, Hn, Hs.
  cbv zeta. by rewrite Hu, Hl, Hn, Hs.
Qed.

Lemma sanitize_length_id o n :
  olength o = Some n → 1 ≤ n → sanitize_length o = o.
Proof.
  intros Hn Hpos. unfold sanitize_length. rewrite Hn. simpl.
  destruct n as [|p|p]; try lia.
  by destruct (Z.ltb_spec (Z.pos p) 1); [lia|].
Qed.

Lemma raise_length_id o n :
  olength o = Some n →
  (∀ m, all_minimums o = Some m → m ≤ n) →
  raise_length o = o.
Proof.
  intros Hn Hm. unfold raise_length. cbv zeta. fold (all_minimums o).
  rewrite Hn. destruct (all_minimums o) as [m|]; simpl; [|done].
  by destruct (Z.ltb_spec n m); [specialize (Hm m eq_refl); lia|].
Qed.

Lemma defaulted_length_pos o : 1 ≤ defaulted_length o.
Proof.
  unfold defaulted_length. destruct (olength o) as [[|p|p]|]; simpl; try lia.
  destruct (Z.ltb_spec (Z.pos p) 1); lia.
Qed.

(** Sanitizing what is already sanitized changes nothing. *)
Lemma sanitize_idempotent o : sanitize (sanitize o) = sanitize o.
Proof.
  set (o' := sanitize o).
  assert (Hmin : sanitize_minimums o' = o').
  { apply sanitize_minimums_id. intros C. unfold o'.
    rewrite sanitize_enabled, sanitize_class_minimum.
    destruct (class_enabled C o) eqn:Hen; [|done]. simpl.
    destruct (Js.lt (class_minimum C o) (Some 0)) eqn:Hlt; [done|].
    by rewrite Hlt. }
  pose proof (sanitize_length_eq o) as Hlen. fold o' in Hlen.
  pose proof (defaulted_length_pos o) as Hpos.
  unfold sanitize at 1. fold o'. rewrite Hmin.
  erewrite (sanitize_length_id o'); [|exact Hlen|destruct (all_minimums o'); lia].
  eapply raise_length_id; [exact Hlen|].
  intros m Hm. rewrite Hm. lia.
Qed.

Lemma merged_of_total o : total o → merged o = o.
Proof.
  destruct o as [len amb nu mnu up mup lo mlo sp msp].
  unfold total. simpl.
  intros ([? ->] & [? ->] & [? ->] & [? ->] & [? ->] & [? ->] &
          [? ->] & [? ->] & [? ->] & [? ->]). reflexivity.
Qed.

Lemma sanitize_total o : total o → total (sanitize o).
Proof.
  intros (Hlen & Ham & Hnu & Hmnu & Hup & Hmup & Hlo & Hmlo & Hsp & Hmsp).
  unfold total.
  destruct (sanitize_frame o) as (-> & -> & -> & -> & ->).
  destruct (sanitize_length_pos o) as (n & Hn & _). rewrite Hn.
  pose proof (sanitize_class_minimum Lowercase o) as Hl.
  pose proof (sanitize_class_minimum Uppercase o) as Hu.
  pose proof (sanitize_class_minimum Number o) as Hnn.
  pose proof (sanitize_class_minimum Special o) as Hs.
  simpl in Hl, Hu, Hnn, Hs. rewrite Hl, Hu, Hnn, Hs.
  repeat split; try done;
    match goal with
    | |- is_Some (if ?b then _ else _) => destruct b; eauto
    end.
Qed.

(** Normalizing is idempotent. *)
Lemma normalized_idempotent opts :
  normalized (normalized opts) = normalized opts.
Proof.
  unfold normalized at 1.
  rewrite (merged_of_total (normalized opts)).
  - apply sanitize_idempotent.
  - apply sanitize_total, merged_total.
Qed.

Lemma allCharSet_empty o : any_enabled o = false → allCharSet o = "".
Proof.
  unfold any_enabled, allCharSet. cbv zeta.
  by destruct (Js.truthy (lowercase o)), (Js.truthy (uppercase o)),
    (Js.truthy (number o)), (Js.truthy (special o)).
Qed.

Lemma class_enabled_any C o : class_enabled C o = true → any_enabled o = true.
Proof.
  unfold any_enabled. destruct C; unfold class_enabled; intros ->;
    by rewrite ?orb_true_r.
Qed.

Lemma flatten_drawn_empty o ps pieces :
  Forall2 (drawn o) ps pieces →
  (∀ p, p ∈ ps → positionChars o p = "") → flatten pieces = "".
Proof.
  induction 1 as [|p piece ps pieces (idx & -> & _) _ IH]; [done|].
  intros Hall. rewrite flatten_cons, (Hall p) by apply list_elem_of_here.
  rewrite charAt_empty, app_empty_l. apply IH. intros q Hq.
  by apply Hall, list_elem_of_further.
Qed.

Section GeneratorMore.
Context `{ArraySort}.

(** X1: for every options object the call returns a string (the
    [TypeError] of an undefined slot never occurs); the string is never
    longer than the normalized [length], and it is empty when no character
    class is enabled. *)
Theorem generatePassword_returns options (σ : store) r opts :
  σ !! DefaultOptions_ref = Some DefaultOptions →
  σ !! options = Some opts →
  ∃ pw r' n,
    (generatePassword options σ r).2 = Some (pw, r') ∧
    olength (normalized opts) = Some n ∧
    Z.of_nat (String.length pw) ≤ n ∧
    (any_enabled (normalized opts) = false → pw = "").
Proof.
  intros Hdef Hopt. rewrite (generatePassword_eq _ _ _ _ Hdef Hopt). simpl.
  destruct (sanitize_length_pos (merged opts)) as (n & Hn & Hpos).
  fold (normalized opts) in Hn. set (o := normalized opts) in *.
  destruct (build_password_spec o n r Hn)
    as (positions & pieces & r' & Hperm & Heq & Hall).
  exists (flatten pieces), r', n. split; [done|]. split; [done|]. split.
  - pose proof (flatten_drawn_length _ _ _ Hall) as Hle.
    rewrite length_take in Hle. lia.
  - intros Hnone. apply (flatten_drawn_empty _ _ _ Hall).
    intros p Hp%subseteq_take. rewrite Hperm in Hp.
    destruct (plan_position o n p Hn Hp) as [->|(C & _ & HC)].
    + by apply allCharSet_empty.
    + apply class_enabled_any in HC. congruence.
Qed.

(** X2: every character of the returned string belongs to the set of an
    enabled class, and to the set of no disabled class. *)
Theorem generatePassword_enabled_classes_only options (σ : store) r opts :
  σ !! DefaultOptions_ref = Some DefaultOptions →
  σ !! options = Some opts →
  let o := normalized opts in
  ∃ pw r',
    (generatePassword options σ r).2 = Some (pw, r') ∧
    ∀ c, c ∈ chars_of pw →
      (∃ C, class_enabled C o = true ∧ c ∈ chars_of (class_set C o)) ∧
      (∀ D, class_enabled D o = false → c ∉ chars_of (class_set D o)).
Proof.
  intros Hdef Hopt o. rewrite (generatePassword_eq _ _ _ _ Hdef Hopt). simpl.
  destruct (sanitize_length_pos (merged opts)) as (n & Hn & Hpos).
  fold (normalized opts) in Hn. fold o in Hn |- *.
  destruct (build_password_spec o n r Hn)
    as (positions & pieces & r' & Hperm & Heq & Hall).
  exists (flatten pieces), r'. split; [done|]. intros c Hc.
  assert (Hen : ∃ C, class_enabled C o = true ∧ c ∈ chars_of (class_set C o)).
  { destruct (flatten_drawn_slot _ _ _ _ Hall Hc) as (p & Hp & Hcp).
    apply subseteq_take in Hp. rewrite Hperm in Hp.
    destruct (plan_position o n p Hn Hp) as [->|(C & -> & HC)].
    - by apply allCharSet_chars.
    - exists C. by rewrite <- positionChars_class. }
  split; [done|]. intros D HD. destruct Hen as (C & HC & HcC).
  apply (class_sets_disjoint o C D); [congruence|done].
Qed.

(** X3: a requested [length] of at least 1 that covers the sum of the
    four minimums, none of them negative, is the length of the returned
    string, provided some class is enabled. *)
Theorem generatePassword_requested_length options (σ : store) r opts L s :
  σ !! DefaultOptions_ref = Some DefaultOptions →
  σ !! options = Some opts →
  olength opts = Some L → 1 ≤ L →
  (∀ C m, class_minimum C (merged opts) = Some m → 0 ≤ m) →
  all_minimums (merged opts) = Some s → s ≤ L →
  any_enabled (merged opts) = true →
  ∃ pw r',
    (generatePassword options σ r).2 = Some (pw, r') ∧
    Z.of_nat (String.length pw) = L.
Proof.
  intros Hdef Hopt HL Hpos Hmin Hsum Hle Hen.
  rewrite (generatePassword_eq _ _ _ _ Hdef Hopt). simpl.
  assert (Hkeep : ∀ C, class_minimum C (normalized opts)
                       = class_minimum C (merged opts)).
  { intros C. unfold normalized. rewrite sanitize_class_minimum.
    destruct (class_minimum C (merged opts)) as [m|] eqn:Hm;
      [|by rewrite andb_false_r].
    specialize (Hmin C m Hm). simpl.
    destruct (Z.ltb_spec m 0); [lia|]. by rewrite andb_false_r. }
  assert (Hall : all_minimums (normalized opts) = Some s).
  { pose proof (Hkeep Uppercase) as Hu. pose proof (Hkeep Lowercase) as Hl.
    pose proof (Hkeep Number) as Hn. pose proof (Hkeep Special) as Hs.
    simpl in Hu, Hl, Hn, Hs. unfold all_minimums in Hsum |- *.
    by rewrite Hu, Hl, Hn, Hs. }
  assert (Hlen : olength (normalized opts) = Some L).
  { unfold normalized in Hall |- *. rewrite sanitize_length_eq, Hall.
    unfold defaulted_length, merged. simpl. rewrite HL. simpl.
    destruct (Z.eqb_spec L 0), (Z.ltb_spec L 1); try lia.
    simpl. f_equal. lia. }
  apply build_password_length; [|done|lia].
  unfold normalized, any_enabled in Hen |- *.
  by destruct (sanitize_frame (merged opts)) as (-> & -> & -> & -> & _).
Qed.

(** X4: normalizing is idempotent, so a call on an object that holds the
    normalized options of [opts] returns, from the same randomness, what
    the call on [opts] returns. *)
Theorem generatePassword_of_normalized options1 options2 (σ1 σ2 : store) r
    opts :
  σ1 !! DefaultOptions_ref = Some DefaultOptions →
  σ1 !! options1 = Some opts →
  σ2 !! DefaultOptions_ref = Some DefaultOptions →
  σ2 !! options2 = Some (normalized opts) →
  normalized (normalized opts) = normalized opts ∧
  (generatePassword options2 σ2 r).2 = (generatePassword options1 σ1 r).2.
Proof.
  intros Hdef1 Hopt1 Hdef2 Hopt2. split; [apply normalized_idempotent|].
  rewrite (generatePassword_eq _ _ _ _ Hdef1 Hopt1).
  rewrite (generatePassword_eq _ _ _ _ Hdef2 Hopt2). simpl.
  by rewrite normalized_idempotent.
Qed.

(** X5: provided no disabled class carries a negative minimum, an enabled
    class gets at least its sanitized minimum of characters of its set: 1
    when its minimum is negative, the minimum itself otherwise. *)
Theorem generatePassword_sanitized_minimum_met options (σ : store) r opts
    C k :
  σ !! DefaultOptions_ref = Some DefaultOptions →
  σ !! options = Some opts →
  (∀ D d, class_enabled D (merged opts) = false →
          class_minimum D (merged opts) = Some d → 0 ≤ d) →
  class_enabled C (merged opts) = true →
  class_minimum C (merged opts) = Some k →
  ∃ pw r',
    (generatePassword options σ r).2 = Some (pw, r') ∧
    (Z.to_nat (if (k <? 0)%Z then 1%Z else k)
     ≤ count_in (class_set C (normalized opts)) pw)%nat.
Proof.
  intros Hdef Hopt Hdis Hen Hk.
  rewrite (generatePassword_eq _ _ _ _ Hdef Hopt). simpl.
  set (o := normalized opts). set (k' := if k <? 0 then 1 else k).
  assert (Hmin : ∀ D, ∃ d, class_minimum D o = Some d ∧ 0 ≤ d).
  { intros D. unfold o, normalized. rewrite sanitize_class_minimum.
    assert (is_Some (class_minimum D (merged opts))) as [d Hd].
    { destruct (merged_total opts) as (?&?&?&?&?&?&?&?&?&?). by destruct D. }
    rewrite Hd. simpl. destruct (class_enabled D (merged opts)) eqn:HD; simpl.
    - destruct (Z.ltb_spec d 0); eauto with lia.
    - eauto. }
  destruct (Hmin Lowercase) as (l & Hl & ?), (Hmin Uppercase) as (u & Hu & ?),
    (Hmin Number) as (n' & Hn' & ?), (Hmin Special) as (s & Hs & ?).
  simpl in Hl, Hu, Hn', Hs.
  pose proof (sanitize_length_eq (merged opts)) as Hlen.
  fold (normalized opts) in Hlen. fold o in Hlen.
  unfold all_minimums in Hlen. rewrite Hl, Hu, Hn', Hs in Hlen.
  simpl in Hlen.
  set (n := Z.max (defaulted_length (merged opts)) (u + l + n' + s)) in Hlen.
  pose proof (fixed_positions_length o l u n' s Hl Hu Hn' Hs) as Hfix.
  assert (HkC : class_minimum C o = Some k').
  { unfold o, normalized, k'. rewrite sanitize_class_minimum, Hen, Hk.
    simpl. by destruct (k <? 0). }
  assert (Hk' : 0 ≤ k') by (unfold k'; destruct (Z.ltb_spec k 0); lia).
  assert (HenC : class_enabled C o = true).
  { unfold o, normalized. by rewrite sanitize_enabled. }
  destruct (build_password_spec o n r Hlen)
    as (positions & pieces & r' & Hperm & Heq & Hall).
  exists (flatten pieces), r'. split; [done|].
  apply pieces_one_char in Hall; [|by apply (class_enabled_any C)].
  rewrite take_ge in Hall.
  2:{ rewrite (Permutation_length Hperm), (plan_length _ n Hlen). lia. }
  rewrite <- positionChars_class.
  etrans; [|apply (flatten_one_char_count _ _ _ _ Hall)].
  rewrite (tagged_perm _ _ _ Hperm), (plan_fixed_fill _ n Hlen), tagged_app.
  rewrite (tagged_fixed C o k' HenC HkC Hk'). lia.
Qed.

End GeneratorMore.

(** * Further facts on the history store *)

Section HistoryMore.
Context `{CryptoService}.

(** A property of the cached list and the clock reading count that holds
    of the empty list and survives every insertion holds in every state
    the instance reaches. *)
Lemma reachable_cache_ind (c : nat → Z)
    (Q : nat → list PasswordHistory → Prop) :
  (∀ t, Q t []) →
  (∀ t l pw, Q t l → last_password_is pw l = false →
             Q (S t) (push_capped l (mkPasswordHistory pw (c t)))) →
  ∀ k0 s es,
    ∃ l, cached (run es (new_service k0 s c)) = Some l ∧
         Q (ticks (run es (new_service k0 s c))) l.
Proof.
  intros Hnil Hpush k0 s es.
  set (I := fun w : World =>
              clock w = c ∧
              ∃ a l, history w = Some a ∧ arrays w !! a = Some l ∧
                     Q (ticks w) l).
  assert (Hstep : ∀ e w, I w → I (step e w)).
  { intros e w (Hc & a & l & Ha & Hl & HQ).
    destruct e as [|pw| |k'|[v|]]; simpl; try (split; [done|by exists a, l]).
    - destruct (key w) as [k|] eqn:Hk.
      + rewrite (getHistory_cached w k a Hk Ha). split; [done|by exists a, l].
      + rewrite (getHistory_no_key w Hk). split; [done|].
        exists a, l. split; [done|]. split; [by apply new_array_other|done].
    - destruct (key w) as [k|] eqn:Hk.
      + destruct (addHistory_post pw w k a l Hk Ha Hl)
          as (_ & Ha1 & Hl1 & Hc1 & Ht1 & _).
        split; [congruence|]. eexists a, _. split; [done|].
        split; [exact Hl1|]. rewrite Ht1.
        destruct (last_password_is pw l) eqn:Hlast; [done|].
        rewrite Hc. by apply Hpush.
      + rewrite (addHistory_no_key pw w Hk). split; [done|by exists a, l].
    - split; [done|]. exists (fresh (dom (arrays w))), [].
      unfold clear. simpl. split; [done|]. split; [|apply Hnil].
      by rewrite lookup_insert_eq. }
  assert (Hrun : ∀ es w, I w → I (run es w)).
  { intros es'. induction es' as [|e es' IH]; intros w Hw; simpl; [done|].
    by apply IH, Hstep. }
  destruct (Hrun es (new_service k0 s c)) as (_ & a & l & Ha & Hl & HQ).
  { split; [reflexivity|]. exists 0%nat, []. repeat split; try reflexivity.
    apply Hnil. }
  exists l. split; [by apply (cached_eq _ a)|done].
Qed.

Lemma push_capped_cases l x :
  push_capped l x = l ++ [x] ∨ push_capped l x = drop 1 (l ++ [x]).
Proof. unfold push_capped. destruct (_ <? _); auto. Qed.

Lemma no_adjacent_duplicate_snoc l x :
  no_adjacent_duplicate l → last_password_is (password x) l = false →
  no_adjacent_duplicate (l ++ [x]).
Proof.
  intros Hl Hlast i y z Hy Hz.
  destruct (decide (S i < List.length l)%nat) as [Hlt|Hge].
  - rewrite lookup_app_l in Hy, Hz by lia. by eapply Hl.
  - assert (S i = List.length l) as Hi.
    { apply lookup_lt_Some in Hz. rewrite length_app in Hz. simpl in Hz. lia. }
    rewrite lookup_app_l in Hy by lia.
    rewrite lookup_app_r, Hi, Nat.sub_diag in Hz by lia. injection Hz as <-.
    unfold last_password_is in Hlast. rewrite last_lookup in Hlast.
    replace (Init.Nat.pred (List.length l)) with i in Hlast by lia.
    rewrite Hy in Hlast. by apply bool_decide_eq_false in Hlast.
Qed.

Lemma no_adjacent_duplicate_drop l n :
  no_adjacent_duplicate l → no_adjacent_duplicate (drop n l).
Proof.
  intros Hl i y z Hy Hz. rewrite lookup_drop in Hy, Hz.
  apply (Hl (n + i)%nat); [done|]. by rewrite <- Nat.add_succ_r.
Qed.

(** X8: in every state an instance reaches, no two neighbouring entries
    of the cached history carry the same password. *)
Theorem history_no_adjacent_duplicate k0 s c es :
  ∃ l, cached (run es (new_service k0 s c)) = Some l ∧
       no_adjacent_duplicate l.
Proof.
  destruct (reachable_cache_ind c (fun _ l => no_adjacent_duplicate l))
    with (k0 := k0) (s := s) (es := es) as (l & Hl & HQ).
  - intros _ i x y Hx. by rewrite lookup_nil in Hx.
  - intros t l pw Hl Hlast.
    assert (Hs : no_adjacent_duplicate (l ++ [mkPasswordHistory pw (c t)]))
      by by apply no_adjacent_duplicate_snoc.
    destruct (push_capped_cases l (mkPasswordHistory pw (c t))) as [->| ->];
      [done|by apply no_adjacent_duplicate_drop].
  - by exists l.
Qed.

Lemma chronological_drop l n : chronological l → chronological (drop n l).
Proof.
  intros Hl i j x y Hij Hx Hy. rewrite lookup_drop in Hx, Hy.
  apply (Hl (n + i)%nat (n + j)%nat); [lia|done..].
Qed.

(** X9: when the clock never runs backwards, the cached history is in
    chronological order in every state an instance reaches. *)
Theorem history_chronological k0 s c es :
  (∀ i j, (i ≤ j)%nat → c i ≤ c j) →
  ∃ l, cached (run es (new_service k0 s c)) = Some l ∧ chronological l.
Proof.
  intros Hmono.
  destruct (reachable_cache_ind c
              (fun t l => chronological l ∧
                          Forall (fun x => ∃ i, (i < t)%nat ∧ date x = c i) l))
    with (k0 := k0) (s := s) (es := es) as (l & Hl & HQ & _).
  - intros t. split; [|constructor].
    intros i j x y _ Hx. by rewrite lookup_nil in Hx.
  - intros t l pw (Hchr & Hold) Hlast.
    set (x := mkPasswordHistory pw (c t)).
    assert (Hs : chronological (l ++ [x]) ∧
                 Forall (fun x => ∃ i, (i < S t)%nat ∧ date x = c i) (l ++ [x])).
    { split.
      - intros i j y z Hij Hy Hz.
        destruct (decide (j < List.length l)%nat) as [Hlt|Hge].
        + rewrite lookup_app_l in Hy, Hz by lia. by apply (Hchr i j).
        + assert (j = List.length l) as ->.
          { apply lookup_lt_Some in Hz. rewrite length_app in Hz.
            simpl in Hz. lia. }
          rewrite lookup_app_r, Nat.sub_diag in Hz by lia. injection Hz as <-.
          destruct (decide (i < List.length l)%nat) as [Hlt|Hge'].
          * rewrite lookup_app_l in Hy by lia.
            rewrite Forall_forall in Hold.
            destruct (Hold y) as (n & Hn & ->).
            { apply list_elem_of_lookup. eauto. }
            simpl. apply Hmono. lia.
          * assert (i = List.length l) as -> by lia.
            rewrite lookup_app_r, Nat.sub_diag in Hy by lia.
            by injection Hy as <-.
      - apply Forall_app. split.
        + eapply Forall_impl; [exact Hold|].
          intros y (n & Hn & Hy). exists n. split; [lia|done].
        + constructor; [|constructor]. exists t. split; [lia|done]. }
    destruct Hs as (Hs1 & Hs2).
    destruct (push_capped_cases l x) as [->| ->]; [done|].
    split; [by apply chronological_drop|by apply Forall_drop].
  - by exists l.
Qed.

Lemma clear_eq w :
  clear w
  = (tt, mkWorld (key w) (delete Keys.history (storage w))
                 (<[fresh (dom (arrays w)) := []]> (arrays w))
                 (clock w) (ticks w)
                 (StorageRemove Keys.history :: calls w)
                 (Some (fresh (dom (arrays w))))).
Proof. reflexivity. Qed.

(** X6: [clear()] leaves an empty cache and no persisted history, with or
    without a key; its only collaborator call is the removal, other storage
    keys and every existing array (the former cache among them) are left as
    they were, and the next [getHistory()] returns an empty array after
    the single call [getKey]. *)
Theorem clear_resets w :
  let w' := (clear w).2 in
  let g := getHistory w' in
  cached w' = Some [] ∧ storage w' !! Keys.history = None ∧
  (∀ k, k ≠ Keys.history → storage w' !! k = storage w !! k) ∧
  calls w' = StorageRemove Keys.history :: calls w ∧
  (∀ b l, arrays w !! b = Some l → arrays w' !! b = Some l) ∧
  arrays g.2 !! g.1 = Some [] ∧ calls g.2 = GetKey :: calls w'.
Proof.
  intros w' g.
  assert (Hf : arrays w !! fresh (dom (arrays w)) = None)
    by apply not_elem_of_dom, is_fresh.
  assert (Hh : history w' = Some (fresh (dom (arrays w)))) by reflexivity.
  assert (Ha : arrays w' !! fresh (dom (arrays w)) = Some []).
  { unfold w'. rewrite clear_eq. cbn [snd arrays]. by rewrite lookup_insert_eq. }
  split; [by apply (cached_eq w' _ [] Hh)|].
  split.
  { unfold w'. rewrite clear_eq. cbn [snd storage]. by rewrite lookup_delete_eq. }
  split.
  { intros k Hk. unfold w'. rewrite clear_eq. cbn [snd storage].
    by rewrite lookup_delete_ne. }
  split; [reflexivity|].
  split.
  { intros b l Hb. assert (fresh (dom (arrays w)) ≠ b) by congruence.
    unfold w'. rewrite clear_eq. cbn [snd arrays].
    by rewrite lookup_insert_ne. }
  unfold g. destruct (key w') as [k|] eqn:Hk.
  - rewrite (getHistory_cached w' k _ Hk Hh). by split.
  - rewrite (getHistory_no_key w' Hk). split; [apply new_array_lookup|done].
Qed.

Lemma push_capped_nonempty l x : push_capped l x ≠ [].
Proof.
  intros Heq. pose proof (push_capped_last l x) as Hl. by rewrite Heq in Hl.
Qed.

(** Over events whose awaited calls are all fulfilled, none of them a
    write to the persisted list from outside, the persisted list mirrors
    the cache. *)
Lemma run_mirrors_cache k0 s c es :
  Forall (fun e => stores_externally e = false) es →
  let w := run es (new_service k0 s c) in
  ∃ l, cached w = Some l ∧
       (l ≠ [] → storage w !! Keys.history = Some (map encrypt_item l)) ∧
       (l = [] → storage w !! Keys.history = None ∨
                 storage w !! Keys.history = s !! Keys.history).
Proof.
  intros Hes w.
  set (I := fun w : World =>
              ∃ a l, history w = Some a ∧ arrays w !! a = Some l ∧
                (l ≠ [] → storage w !! Keys.history
                          = Some (map encrypt_item l)) ∧
                (l = [] → storage w !! Keys.history = None ∨
                          storage w !! Keys.history = s !! Keys.history)).
  assert (Hstep : ∀ e w, stores_externally e = false → I w → I (step e w)).
  { intros e w0 He (a & l & Ha & Hl & Hfull & Hempty).
    destruct e as [|pw| |k'|v]; cbn [step]; try done; try by exists a, l.
    - destruct (key w0) as [k|] eqn:Hk.
      + rewrite (getHistory_cached w0 k a Hk Ha). by exists a, l.
      + rewrite (getHistory_no_key w0 Hk). exists a, l.
        split; [done|]. split; [by apply new_array_other|done].
    - destruct (key w0) as [k|] eqn:Hk.
      + destruct (addHistory_post pw w0 k a l Hk Ha Hl)
          as (_ & Ha1 & Hl1 & _ & _ & Hst1 & _).
        eexists a, _. split; [done|]. split; [exact Hl1|].
        destruct (last_password_is pw l) eqn:Hlast.
        * rewrite Hst1. by split.
        * rewrite Hst1, lookup_insert_eq. split; [done|].
          intros Hnil. by apply push_capped_nonempty in Hnil.
      + rewrite (addHistory_no_key pw w0 Hk). by exists a, l.
    - exists (fresh (dom (arrays w0))), []. rewrite clear_eq.
      cbn [snd history arrays storage].
      split; [done|]. split; [by rewrite lookup_insert_eq|].
      split; [done|]. intros _. left. by rewrite lookup_delete_eq. }
  assert (Hrun : ∀ es w, Forall (fun e => stores_externally e = false) es →
                         I w → I (run es w)).
  { intros es'. induction es' as [|e es' IH]; intros w0 Hall Hw; simpl;
      [done|].
    apply Forall_cons in Hall as [He Hall]. by apply IH, Hstep. }
  destruct (Hrun es (new_service k0 s c) Hes) as (a & l & Ha & Hl & Hfull & Hempty).
  { exists 0%nat, []. repeat split; try reflexivity; [done|by right]. }
  exists l. split; [by apply (cached_eq _ a)|by split].
Qed.

(** [addHistory] is lines 192-211 followed by lines 213-214. *)
Lemma addHistory_insert_persist pw w :
  addHistory pw w
  = (currentHistory ← addHistory_insert pw;
     match currentHistory with
     | Some a => addHistory_persist a
     | None => nothing
     end) w.
Proof.
  unfold addHistory, addHistory_insert, addHistory_persist, mbind, M_bind.
  destruct (getKey w) as [k w1]. cbv zeta.
  destruct (negb (bool_decide (k ≠ None))); [reflexivity|].
  destruct (getHistory w1) as [a w2].
  destruct (matchesPrevious pw (Some a) w2) as [[] w3]; [reflexivity|].
  destruct (Date_now w3) as [now w4].
  destruct (array_push a _ w4) as [[] w5].
  destruct (array_items a w5) as [items w6].
  destruct ((if MaxPasswordsInHistory <? Z.of_nat (List.length items)
             then array_shift a else nothing) w6) as [[] w7].
  reflexivity.
Qed.

Lemma addHistory_insert_eq pw w k a l :
  key w = Some k → history w = Some a → arrays w !! a = Some l →
  last_password_is pw l = false →
  let x := mkPasswordHistory pw (clock w (ticks w)) in
  addHistory_insert pw w
  = (Some a, mkWorld (key w) (storage w)
                     (<[a := push_capped l x]> (arrays w))
                     (clock w) (S (ticks w))
                     (GetKey :: GetKey :: calls w) (history w)).
Proof.
  intros Hk Ha Hl Hlast x. unfold addHistory_insert.
  erewrite bind_run; [|reflexivity]. rewrite Hk. cbv zeta.
  rewrite bool_decide_eq_true_2 by done. cbn [negb]. cbv iota.
  erewrite bind_run; [|by eapply getHistory_cached].
  erewrite bind_run; [|by eapply matchesPrevious_eq].
  rewrite Hlast. cbv beta iota.
  destruct w as [k0 st arr0 clk tk cs h]. simpl in Hk, Ha, Hl.
  subst k0 h. cbn [clock ticks key storage arrays calls history] in *.
  erewrite bind_run; [|reflexivity].
  erewrite bind_run; [|reflexivity].
  cbn [log with_arrays clock ticks key storage arrays calls history].
  rewrite (alter_lookup _ _ _ _ Hl).
  cbn [with_arrays clock ticks key storage arrays calls history].
  erewrite bind_run; [|apply array_items_eq, lookup_insert_eq].
  fold x.
  erewrite bind_run; [reflexivity|].
  unfold push_capped. destruct (_ <? _); [|done].
  unfold array_shift. cbn [arrays with_arrays key storage clock ticks calls history].
  by rewrite alter_insert_eq.
Qed.

(** With every call fulfilled the attempts are the events. *)
Lemma attempts_fulfilled es w : attempts (map Fulfilled es) w = run es w.
Proof.
  revert w. induction es as [|e es IH]; intros w; [done|]. simpl. apply IH.
Qed.

Lemma undisturbed_events ts :
  Forall (fun t => undisturbed t = true) ts →
  ∃ es, ts = map Fulfilled es ∧
        Forall (fun e => stores_externally e = false) es.
Proof.
  induction 1 as [|t ts Ht _ (es & -> & Hes)]; [by exists []|].
  destruct t as [e| |]; try done. exists (e :: es). split; [done|].
  constructor; [|done]. by apply negb_true_iff.
Qed.

(** X7: as long as every collaborator call is fulfilled and nobody else
    writes the persisted list, it mirrors the cache: whenever the cached
    history is not empty the persisted list is its entry-by-entry
    encryption, dates kept; while the cache is empty the persisted list is
    absent or still what it was when the instance was built. *)
Theorem persisted_mirrors_cache k0 s c ts :
  Forall (fun t => undisturbed t = true) ts →
  let w := attempts ts (new_service k0 s c) in
  ∃ l, cached w = Some l ∧
       (l ≠ [] → storage w !! Keys.history = Some (map encrypt_item l)) ∧
       (l = [] → storage w !! Keys.history = None ∨
                 storage w !! Keys.history = s !! Keys.history).
Proof.
  intros Hts w. destruct (undisturbed_events ts Hts) as (es & -> & Hes).
  unfold w. rewrite attempts_fulfilled. by apply run_mirrors_cache.
Qed.

(** X16: an inserting [addHistory] whose [encrypt] or [save] rejects has
    put the entry into the cache and left the storage as it was; called
    again with the same password it is suppressed as a duplicate, making
    two [getKey] calls and no other, so that the entry stays in the cache
    and out of the storage. *)
Theorem addHistory_rejected_strands_entry how pw w k a l :
  key w = Some k → history w = Some a → arrays w !! a = Some l →
  last_password_is pw l = false →
  let x := mkPasswordHistory pw (clock w (ticks w)) in
  let w1 := (addHistory_rejected how pw w).2 in
  let w2 := (addHistory pw w1).2 in
  cached w1 = Some (push_capped l x) ∧ storage w1 = storage w ∧
  cached w2 = Some (push_capped l x) ∧ storage w2 = storage w ∧
  calls w2 = GetKey :: GetKey :: calls w1.
Proof.
  intros Hk Ha Hl Hlast x w1 w2.
  assert (Hw1 : key w1 = Some k ∧ history w1 = Some a ∧
                arrays w1 !! a = Some (push_capped l x) ∧
                storage w1 = storage w).
  { unfold w1, addHistory_rejected.
    erewrite bind_run; [|by eapply addHistory_insert_eq]. fold x.
    set (w0 := mkWorld _ _ _ _ _ _ _).
    assert (Hl0 : arrays w0 !! a = Some (push_capped l x))
      by apply lookup_insert_eq.
    destruct how; unfold addHistory_persist_rejected.
    - erewrite bind_run; [|by apply array_items_eq].
      erewrite bind_run.
      2:{ apply (map_all_logged (fun item => encrypt (password item))
                   (fun item => Encrypt (password item))). }
      done.
    - erewrite bind_run.
      2:{ apply encryptHistory_eq with (l := push_capped l x); [done|].
          apply push_capped_nonempty. }
      unfold storage_save_rejected. cbn [snd].
      repeat split; try done.
      exact (new_array_other (map encrypt_item (push_capped l x))
               (log_many (rev (map (fun item => Encrypt (password item))
                                   (push_capped l x))) w0) a _ Hl0). }
  destruct Hw1 as (Hk1 & Ha1 & Hl1 & Hst1).
  assert (Hdup : last_password_is pw (push_capped l x) = true).
  { unfold last_password_is. rewrite push_capped_last. simpl.
    by rewrite bool_decide_eq_true_2. }
  split; [by apply (cached_eq _ a)|]. split; [done|].
  unfold w2. rewrite (addHistory_suppressed pw w1 k a _ Hk1 Ha1 Hl1 Hdup).
  cbn [snd]. split; [by apply (cached_eq _ a)|]. by split.
Qed.


(** X17: a [clear] whose [remove] rejects has emptied the cache and left
    the storage as it was. *)
Theorem clear_rejected_keeps_persisted w :
  let w' := (clear_rejected w).2 in
  cached w' = Some [] ∧ storage w' = storage w ∧
  calls w' = StorageRemove Keys.history :: calls w.
Proof.
  intros w'.
  assert (Heq : clear_rejected w
                = (tt, mkWorld (key w) (storage w)
                         (<[fresh (dom (arrays w)) := []]> (arrays w))
                         (clock w) (ticks w)
                         (StorageRemove Keys.history :: calls w)
                         (Some (fresh (dom (arrays w))))))
    by reflexivity.
  unfold w'. rewrite Heq. cbn [snd]. split; [|done].
  apply (cached_eq _ (fresh (dom (arrays w)))); [reflexivity|].
  cbn [arrays]. by rewrite lookup_insert_eq.
Qed.

Lemma encryptHistory_any w a l :
  arrays w !! a = Some l →
  encryptHistory (Some a) w
  = new_array (map encrypt_item l)
              (log_many (rev (map (fun item => Encrypt (password item)) l)) w).
Proof.
  intros Ha. destruct l as [|item l]; [|by apply encryptHistory_eq].
  unfold encryptHistory. erewrite bind_run; [|by apply array_items_eq].
  simpl. by rewrite log_many_nil.
Qed.

Lemma decryptHistory_any w a l :
  arrays w !! a = Some l →
  decryptHistory (Some a) w
  = new_array (map decrypt_item l)
      (log_many (rev (map (fun item => Decrypt (mkCipherString (password item)))
                          l)) w).
Proof.
  intros Ha. destruct l as [|item l]; [|by apply decryptHistory_eq].
  unfold decryptHistory. erewrite bind_run; [|by apply array_items_eq].
  simpl. by rewrite log_many_nil.
Qed.

Lemma new_array_ref_fresh items w a l :
  arrays w !! a = Some l → (new_array items w).1 ≠ a.
Proof.
  intros Ha Heq. unfold new_array in Heq. cbn [fst] in Heq. subst a.
  apply (is_fresh (dom (arrays w))), elem_of_dom. exists l. exact Ha.
Qed.

(** X10: [encryptHistory] and [decryptHistory] build a new array and
    leave the array they are given as it was; they make exactly one
    [encrypt] (one [decrypt]) call per entry, in index order, and none for
    an empty array; storage and [this.history] are not touched. *)
Theorem crypt_history_effects w a l :
  arrays w !! a = Some l →
  let e := encryptHistory (Some a) w in
  let d := decryptHistory (Some a) w in
  (e.1 ≠ a ∧ arrays e.2 !! e.1 = Some (map encrypt_item l) ∧
   arrays e.2 !! a = Some l ∧
   calls e.2 = rev (map (fun item => Encrypt (password item)) l) ++ calls w ∧
   storage e.2 = storage w ∧ history e.2 = history w) ∧
  (d.1 ≠ a ∧ arrays d.2 !! d.1 = Some (map decrypt_item l) ∧
   arrays d.2 !! a = Some l ∧
   calls d.2
   = rev (map (fun item => Decrypt (mkCipherString (password item))) l)
     ++ calls w ∧
   storage d.2 = storage w ∧ history d.2 = history w).
Proof.
  intros Ha e d.
  unfold e, d. rewrite (encryptHistory_any w a l Ha), (decryptHistory_any w a l Ha).
  split; (split; [by apply (new_array_ref_fresh _ _ a l)|]);
    (split; [apply new_array_lookup|]);
    (split; [by apply new_array_other|]); by repeat split.
Qed.

(** X11: with a key, [getHistory()] hands out the cached array itself, not
    a copy: after a later inserting [addHistory], the array obtained before
    holds the new entry. *)
Theorem getHistory_returns_cache_itself w k a l pw :
  key w = Some k → history w = Some a → arrays w !! a = Some l →
  last_password_is pw l = false →
  let g := getHistory w in
  g.1 = a ∧
  arrays (addHistory pw g.2).2 !! g.1
  = Some (push_capped l (mkPasswordHistory pw (clock w (ticks w)))).
Proof.
  intros Hk Ha Hl Hlast g. unfold g.
  rewrite (getHistory_cached w k a Hk Ha). simpl. split; [done|].
  destruct (addHistory_post pw (log GetKey w) k a l Hk Ha Hl)
    as (_ & _ & Hl1 & _).
  by rewrite Hlast in Hl1.
Qed.

End HistoryMore.

(** * Facts on the options cache *)

Lemma fresh_ne_lookup {A} (m : gmap nat A) (i : nat) (x : A) :
  m !! i = Some x → fresh (dom m) ≠ i.
Proof.
  intros Hi Heq. apply (is_fresh (dom m)). rewrite Heq.
  apply elem_of_dom. eauto.
Qed.

(** X12: the first [getOptions()] of an instance reads the storage once
    and caches what it returns; every later call returns the same
    reference without any storage call, whatever has been stored in the
    meantime. *)
Theorem getOptions_caches w s' :
  optionsCache w = None →
  let g := getOptions w in
  let stale := mkOptionsWorld (objects g.2) s' (options_calls g.2)
                              (optionsCache g.2) in
  is_Some g.1 ∧
  options_calls g.2 = OptionsGet Keys.options :: options_calls w ∧
  saved g.2 = saved w ∧
  getOptions g.2 = (g.1, g.2) ∧
  getOptions stale = (g.1, stale).
Proof.
  intros Hc g stale. unfold stale, g, getOptions, options_storage_get.
  rewrite Hc. cbv zeta.
  destruct (saved w !! Keys.options) as [v|]; simpl; by eauto 10.
Qed.

(** X13: storing options and reading them back.  After
    [saveOptions(options)] the instance returns [options] itself, without
    reading the storage; the storage holds the properties of [options] as
    they were at the time of the call, unvalidated; and another instance
    over the same storage gets a new object with these same properties. *)
Theorem saveOptions_getOptions w r v :
  objects w !! r = Some v →
  let w1 := saveOptions (Some r) w in
  let other := getOptions (new_options_service (objects w1) (saved w1)) in
  getOptions w1 = (Some r, w1) ∧
  saved w1 !! Keys.options = Some v ∧
  objects w1 = objects w ∧
  ∃ r', other.1 = Some r' ∧ r' ≠ r ∧
        objects other.2 !! r' = Some v ∧ objects other.2 !! r = Some v.
Proof.
  intros Hr w1 other.
  assert (Hs : saved w1 !! Keys.options = Some v).
  { unfold w1, saveOptions, options_storage_save. simpl. rewrite Hr. simpl.
    by rewrite lookup_insert_eq. }
  split; [done|]. split; [done|]. split; [done|].
  pose proof (fresh_ne_lookup _ _ _ Hr) as Hne.
  unfold other, getOptions, options_storage_get, new_options_service.
  cbn [optionsCache saved]. rewrite Hs.
  cbn [objects fst snd optionsCache set_optionsCache].
  eexists. split; [reflexivity|]. split; [exact Hne|].
  split; [by rewrite lookup_insert_eq|].
  rewrite lookup_insert_ne; [done|exact Hne].
Qed.

Section OptionsGenerator.
Context `{ArraySort}.

Lemma generatePassword_eq_defaults options (σ : store) r dflt opts :
  σ !! DefaultOptions_ref = Some dflt →
  σ !! options = Some opts →
  generatePassword options σ r
  = (<[fresh (dom σ) := sanitize (merged_with dflt opts)]> σ,
     build_password (sanitize (merged_with dflt opts)) r).
Proof.
  intros Hdef Hopt. unfold generatePassword.
  set (o := fresh (dom σ)).
  assert (Ho : σ !! o = None) by (apply not_elem_of_dom, is_fresh).
  assert (o ≠ DefaultOptions_ref) by congruence.
  assert (o ≠ options) by congruence.
  unfold Object_assign. simpl.
  rewrite lookup_insert_ne, Hdef by done.
  rewrite alter_insert_eq.
  rewrite lookup_insert_ne, Hopt by done.
  rewrite !alter_insert_eq.
  by rewrite lookup_insert_eq.
Qed.

(** X14: with nothing saved, [getOptions()] hands out the object bound to
    the module-level [DefaultOptions] itself, not a copy: a write [f] made
    through the returned reference changes the defaults that every later
    [generatePassword] merges in. *)
Theorem getOptions_hands_out_defaults w dflt f options opts r :
  optionsCache w = None →
  saved w !! Keys.options = None →
  objects w !! DefaultOptions_ref = Some dflt →
  let g := getOptions w in
  let σ' := alter f DefaultOptions_ref (objects g.2) in
  g.1 = Some DefaultOptions_ref ∧ objects g.2 = objects w ∧
  (σ' !! options = Some opts →
   (generatePassword options σ' r).2
   = build_password (sanitize (merged_with (f dflt) opts)) r).
Proof.
  intros Hc Hs Hd g σ'.
  assert (Hg : g = (Some DefaultOptions_ref,
                    mkOptionsWorld (objects w) (saved w)
                      (OptionsGet Keys.options :: options_calls w)
                      (Some DefaultOptions_ref))).
  { unfold g, getOptions, options_storage_get. by rewrite Hc, Hs. }
  unfold σ'. rewrite Hg. cbn [fst snd objects].
  split; [done|]. split; [done|]. intros Ho.
  rewrite (generatePassword_eq_defaults options _ r (f dflt) opts); [done| |done].
  by rewrite lookup_alter_eq, Hd.
Qed.

(** X15: generating from what [getOptions()] returns, on an instance whose
    module defaults are intact, is generating from the saved options, or
    from an empty options object when nothing is saved. *)
Theorem generatePassword_from_getOptions w r :
  optionsCache w = None →
  objects w !! DefaultOptions_ref = Some DefaultOptions →
  let g := getOptions w in
  ∃ options,
    g.1 = Some options ∧
    (generatePassword options (objects g.2) r).2
    = build_password
        (normalized (default emptyObj (saved w !! Keys.options))) r.
Proof.
  intros Hc Hd g. unfold g, getOptions, options_storage_get.
  rewrite Hc. cbv zeta.
  destruct (saved w !! Keys.options) as [v|] eqn:Hs;
    cbn [fst snd objects optionsCache set_optionsCache default].
  - eexists. split; [reflexivity|].
    rewrite (generatePassword_eq _ _ r v); [done| |by rewrite lookup_insert_eq].
    rewrite lookup_insert_ne; [done|]. exact (fresh_ne_lookup _ _ _ Hd).
  - eexists. split; [reflexivity|].
    by rewrite (generatePassword_eq _ _ r DefaultOptions).
Qed.

End OptionsGenerator.

(** * The further properties at concrete inputs *)

Lemma generatePassword_returns_witness :
  let opts := mkObj None None (Some false) None (Some false) None
                    (Some false) None (Some false) None in
  ∃ pw r' n,
    (@generatePassword TapeRandom TapeSort 1%nat (store_with opts)
       [3; 1; 4]%nat).2 = Some (pw, r') ∧
    olength (normalized opts) = Some n ∧
    Z.of_nat (String.length pw) ≤ n ∧
    (any_enabled (normalized opts) = false → pw = "").
Proof.
  intros opts.
  apply (@generatePassword_returns TapeRandom TapeSort 1%nat
           (store_with opts) [3; 1; 4]%nat opts); reflexivity.
Defined.

Lemma generatePassword_enabled_classes_only_witness :
  let opts := set_minSpecial (Some (-3)) (set_olength (Some 6) emptyObj) in
  let o := normalized opts in
  ∃ pw r',
    (@generatePassword TapeRandom TapeSort 1%nat (store_with opts)
       [3; 1; 4; 1; 5; 9; 2; 6; 5; 3; 5]%nat).2 = Some (pw, r') ∧
    ∀ c, c ∈ chars_of pw →
      (∃ C, class_enabled C o = true ∧ c ∈ chars_of (class_set C o)) ∧
      (∀ D, class_enabled D o = false → c ∉ chars_of (class_set D o)).
Proof.
  intros opts.
  apply (@generatePassword_enabled_classes_only TapeRandom TapeSort 1%nat
           (store_with opts) [3; 1; 4; 1; 5; 9; 2; 6; 5; 3; 5]%nat opts);
    reflexivity.
Defined.

Lemma generatePassword_requested_length_witness :
  let opts := set_olength (Some 8) emptyObj in
  ∃ pw r',
    (@generatePassword TapeRandom TapeSort 1%nat (store_with opts)
       [3; 1; 4; 1; 5; 9; 2; 6; 5; 3; 5]%nat).2 = Some (pw, r') ∧
    Z.of_nat (String.length pw) = 8.
Proof.
  intros opts.
  apply (@generatePassword_requested_length TapeRandom TapeSort 1%nat
           (store_with opts) [3; 1; 4; 1; 5; 9; 2; 6; 5; 3; 5]%nat opts 8 4);
    try reflexivity; try lia.
  intros [] m [= <-]; lia.
Defined.

Lemma generatePassword_of_normalized_witness :
  let opts := set_minNumber (Some (-2)) (set_olength (Some 2) emptyObj) in
  normalized (normalized opts) = normalized opts ∧
  (@generatePassword TapeRandom TapeSort 1%nat
     (store_with (normalized opts)) [3; 1; 4; 1; 5; 9]%nat).2
  = (@generatePassword TapeRandom TapeSort 1%nat (store_with opts)
       [3; 1; 4; 1; 5; 9]%nat).2.
Proof.
  intros opts.
  apply (@generatePassword_of_normalized TapeRandom TapeSort 1%nat 1%nat
           (store_with opts) (store_with (normalized opts))
           [3; 1; 4; 1; 5; 9]%nat opts); reflexivity.
Defined.

Lemma generatePassword_sanitized_minimum_met_witness :
  let opts := set_minNumber (Some (-2)) (set_olength (Some 2) emptyObj) in
  ∃ pw r',
    (@generatePassword TapeRandom TapeSort 1%nat (store_with opts)
       [3; 1; 4; 1; 5; 9]%nat).2 = Some (pw, r') ∧
    (1 ≤ count_in (class_set Number (normalized opts)) pw)%nat.
Proof.
  intros opts.
  apply (@generatePassword_sanitized_minimum_met TapeRandom TapeSort 1%nat
           (store_with opts) [3; 1; 4; 1; 5; 9]%nat opts Number (-2));
    try reflexivity.
  intros [] d; try discriminate. intros _ [= <-]. lia.
Defined.

Lemma persisted_mirrors_cache_witness :
  let ts := [Fulfilled (CallAddHistory "a"); Fulfilled CallClear;
             Fulfilled (CallAddHistory "b"); Fulfilled (SetKey None);
             Fulfilled CallGetHistory; Fulfilled (CallAddHistory "c")] in
  let s := {[ Keys.history := [mkPasswordHistory "2.old" 5] ]} in
  let w := attempts ts (new_service (Some "k") s (fun n => Z.of_nat n)) in
  ∃ l, cached w = Some l ∧
       (l ≠ [] → storage w !! Keys.history = Some (map encrypt_item l)) ∧
       (l = [] → storage w !! Keys.history = None ∨
                 storage w !! Keys.history = s !! Keys.history).
Proof.
  intros ts s.
  apply (@persisted_mirrors_cache StubCrypto (Some "k") s
           (fun n => Z.of_nat n) ts).
  repeat constructor.
Defined.

Lemma addHistory_rejected_strands_entry_witness :
  let x := mkPasswordHistory "a" 0 in
  let w1 := (addHistory_rejected SaveRejects "a" fresh_instance).2 in
  let w2 := (addHistory "a" w1).2 in
  cached w1 = Some (push_capped [] x) ∧ storage w1 = storage fresh_instance ∧
  cached w2 = Some (push_capped [] x) ∧ storage w2 = storage fresh_instance ∧
  calls w2 = GetKey :: GetKey :: calls w1.
Proof.
  apply (@addHistory_rejected_strands_entry StubCrypto SaveRejects "a"
           fresh_instance "k" 0%nat []); reflexivity.
Defined.

Lemma history_chronological_witness :
  ∃ l, cached (run hundred_adds fresh_instance) = Some l ∧ chronological l.
Proof.
  apply (@history_chronological StubCrypto (Some "k") ∅
           (fun n => Z.of_nat n) hundred_adds).
  intros i j Hij. lia.
Defined.

Lemma crypt_history_effects_witness :
  let L := [mkPasswordHistory "hunter2" 1000; mkPasswordHistory "s3cret" 2000] in
  let w := mkWorld (Some "k") ∅ {[ 0%nat := L ]} (fun n => Z.of_nat n) 0 []
                   (Some 0%nat) in
  let e := encryptHistory (Some 0%nat) w in
  arrays w !! 0%nat = Some L ∧
  arrays e.2 !! 0%nat = Some L ∧
  calls e.2 = [Encrypt "s3cret"; Encrypt "hunter2"].
Proof.
  intros L w e.
  destruct (@crypt_history_effects StubCrypto w 0%nat L eq_refl)
    as ((_ & _ & Hin & Hcalls & _) & _).
  split; [reflexivity|]. split; [exact Hin|exact Hcalls].
Defined.

Lemma getHistory_returns_cache_itself_witness :
  let w := fresh_instance in
  let g := getHistory w in
  g.1 = 0%nat ∧
  arrays (addHistory "p" g.2).2 !! g.1 = Some [mkPasswordHistory "p" 0].
Proof.
  intros w.
  exact (@getHistory_returns_cache_itself StubCrypto w "k" 0%nat [] "p"
           eq_refl eq_refl eq_refl eq_refl).
Defined.

Lemma getOptions_caches_witness :
  let w := new_options_service {[ DefaultOptions_ref := DefaultOptions ]}
             {[ Keys.options := set_olength (Some 20) emptyObj ]} in
  let g := getOptions w in
  let stale := mkOptionsWorld (objects g.2) ∅ (options_calls g.2)
                              (optionsCache g.2) in
  is_Some g.1 ∧
  options_calls g.2 = OptionsGet Keys.options :: options_calls w ∧
  saved g.2 = saved w ∧
  getOptions g.2 = (g.1, g.2) ∧
  getOptions stale = (g.1, stale).
Proof.
  intros w. exact (getOptions_caches w ∅ eq_refl).
Defined.

Lemma saveOptions_getOptions_witness :
  let v := set_olength (Some 20) emptyObj in
  let w := new_options_service (store_with v) ∅ in
  let w1 := saveOptions (Some 1%nat) w in
  getOptions w1 = (Some 1%nat, w1) ∧
  saved w1 !! Keys.options = Some v.
Proof.
  intros v w w1.
  destruct (saveOptions_getOptions w 1%nat v eq_refl) as (Hg & Hs & _).
  split; [exact Hg|exact Hs].
Defined.

Lemma getOptions_hands_out_defaults_witness :
  let w := new_options_service (store_with emptyObj) ∅ in
  let g := getOptions w in
  let σ' := alter (set_olength (Some 20)) DefaultOptions_ref (objects g.2) in
  g.1 = Some DefaultOptions_ref ∧
  (@generatePassword TapeRandom TapeSort 1%nat σ' [3; 1; 4]%nat).2
  = @build_password TapeRandom TapeSort
      (sanitize (merged_with (set_olength (Some 20) DefaultOptions) emptyObj))
      [3; 1; 4]%nat.
Proof.
  intros w g σ'.
  destruct (@getOptions_hands_out_defaults TapeRandom TapeSort w
              DefaultOptions (set_olength (Some 20)) 1%nat emptyObj
              [3; 1; 4]%nat eq_refl eq_refl eq_refl) as (Hg & _ & Hgen).
  split; [exact Hg|]. exact (Hgen eq_refl).
Defined.

Lemma generatePassword_from_getOptions_witness :
  let w := new_options_service {[ DefaultOptions_ref := DefaultOptions ]}
             {[ Keys.options := set_olength (Some 20) emptyObj ]} in
  let g := getOptions w in
  ∃ options,
    g.1 = Some options ∧
    (@generatePassword TapeRandom TapeSort options (objects g.2)
       [3; 1; 4]%nat).2
    = @build_password TapeRandom TapeSort
        (normalized (default emptyObj (saved w !! Keys.options)))
        [3; 1; 4]%nat.
Proof.
  intros w.
  exact (@generatePassword_from_getOptions TapeRandom TapeSort w
           [3; 1; 4]%nat eq_refl eq_refl).
Defined.
